(** * AncestorTree: the family-tree layout and visibility engine

    A shallow embedding of [buildTreeLayout]
    (src/frontend/src/components/tree/family-tree.tsx, lines 261-439) and
    of the closure [getVisiblePeopleIds] it defines, with the properties
    the specification states about them.

    Conventions of the embedding.
    - Identifiers are strings.  A nullable identifier ([string | null]) is
      an [option string]; JavaScript truthiness of such a value is
      [truthy]: [null] and the empty string are both falsy.
    - [Map<string, string[]>] is a [gmap string (list string)];
      [Set<string>] used only through [add]/[delete]/[has] is a
      [gset string].  The collapse set, which the code iterates with
      [forEach], is the list of its members in insertion order.
    - Numbers are integers ([Z]).  All coordinates the layout produces are
      even integers (lemmas [layoutNodes_x_even] and [midpoint_exact]), so the
      divisions by two of the source are exact and [Z.div] renders them
      faithfully.
    - The three recursive closures of [getVisiblePeopleIds] carry no
      termination argument in the source.  They are embedded with a fuel
      parameter that bounds the depth of the call stack: [None] is a run
      that needs a deeper stack than the fuel allows. *)

From stdpp Require Import gmap strings list sorting.
From stdpp Require Import relations pretty.
From Stdlib Require Import ZArith Lia.

Open Scope string_scope.
Open Scope list_scope.
Open Scope Z_scope.

(** ** Constants (lines 47-50) *)

Definition NODE_WIDTH : Z := 120.
Definition NODE_HEIGHT : Z := 80.
Definition LEVEL_HEIGHT : Z := 140.
Definition SIBLING_GAP : Z := 20.

(** ** Records of the input ([TreeData], imported types) *)

Module Person.
Record t := mk { id : string; generation : option Z }.
End Person.

Module Family.
Record t := mk { id : string; father_id : option string; mother_id : option string }.
End Family.

Module Child.
Record t := mk { family_id : string; person_id : string }.
End Child.

Record TreeData := mkTreeData {
  people : list Person.t;
  families : list Family.t;
  children : list Child.t
}.

Inductive ViewMode := all | ancestors | descendants.

#[global] Instance ViewMode_eq_dec : EqDecision ViewMode.
Proof. solve_decision. Defined.
#[global] Instance Person_eq_dec : EqDecision Person.t.
Proof. solve_decision. Defined.
#[global] Instance Family_eq_dec : EqDecision Family.t.
Proof. solve_decision. Defined.
#[global] Instance Child_eq_dec : EqDecision Child.t.
Proof. solve_decision. Defined.

(** ** Records of the output (lines 60-77) *)

Module TreeNodeData.
Record t := mk {
  person : Person.t;
  x : Z;
  y : Z;
  isCollapsed : bool;
  hasChildren : bool;
  isVisible : bool
}.
End TreeNodeData.

Inductive ConnectionType := parent_child | couple.

Module TreeConnectionData.
Record t := mk {
  id : string;
  x1 : Z;
  y1 : Z;
  x2 : Z;
  y2 : Z;
  type : ConnectionType;
  isVisible : bool
}.
End TreeConnectionData.

Record TreeLayout := mkTreeLayout {
  nodes : list TreeNodeData.t;
  connections : list TreeConnectionData.t;
  width : Z;
  height : Z;
  offsetX : Z
}.

(** ** JavaScript truthiness of a nullable string *)

Definition truthy (s : option string) : option string :=
  match s with
  | Some "" => None
  | Some i => Some i
  | None => None
  end.

(** [a || b] on nullable strings. *)
Definition orElse (a b : option string) : option string :=
  match truthy a with
  | Some i => Some i
  | None => b
  end.

(** ** A "forEach" whose body may exhaust the stack *)

Fixpoint forEachM {A S : Type} (body : A → S → option S) (l : list A) (s : S)
  : option S :=
  match l with
  | [] => Some s
  | a :: l' =>
      match body a s with
      | Some s' => forEachM body l' s'
      | None => None
      end
  end.

(** ** Relationship index (lines 269-284) *)

Record Index := mkIndex {
  childToParents : gmap string (list string);
  parentToChildren : gmap string (list string)
}.

(** [[family.father_id, family.mother_id].filter(Boolean)] *)
Definition parentIdsOf (family : Family.t) : list string :=
  omap truthy [Family.father_id family; Family.mother_id family].

(** [children.filter((c) => c.family_id === family.id)] *)
Definition familyChildrenOf (children : list Child.t) (family : Family.t)
  : list Child.t :=
  filter (λ c, Child.family_id c = Family.id family) children.

(** [if (!m.has(parentId)) m.set(parentId, []); m.get(parentId)!.push(child)] *)
Definition pushChild (child : string) (m : gmap string (list string))
    (parentId : string) : gmap string (list string) :=
  let m1 := match m !! parentId with
            | Some _ => m
            | None => <[parentId := []]> m
            end in
  <[parentId := default [] (m1 !! parentId) ++ [child]]> m1.

Definition indexChild (parentIds : list string) (idx : Index) (child : Child.t)
  : Index :=
  {| childToParents := <[Child.person_id child := parentIds]> (childToParents idx);
     parentToChildren :=
       foldl (pushChild (Child.person_id child)) (parentToChildren idx) parentIds |}.

Definition indexFamily (children : list Child.t) (idx : Index)
    (family : Family.t) : Index :=
  foldl (indexChild (parentIdsOf family)) idx (familyChildrenOf children family).

Definition buildIndex (data : TreeData) : Index :=
  foldl (indexFamily (children data)) (mkIndex ∅ ∅) (families data).

(** ** Visibility (lines 287-327) *)

(** [m.get(k) || []] *)
Definition getOrEmpty (m : gmap string (list string)) (k : string) : list string :=
  default [] (m !! k).

Fixpoint hideDescendants (fuel : nat) (parentToChildren : gmap string (list string))
    (personId : string) (visible : gset string) : option (gset string) :=
  match fuel with
  | O => None
  | S fuel' =>
      forEachM
        (λ childId visible,
           hideDescendants fuel' parentToChildren childId (visible ∖ {[childId]}))
        (getOrEmpty parentToChildren personId) visible
  end.

Fixpoint addAncestors (fuel : nat) (childToParents : gmap string (list string))
    (personId : string) (visible : gset string) : option (gset string) :=
  match fuel with
  | O => None
  | S fuel' =>
      forEachM (addAncestors fuel' childToParents)
        (getOrEmpty childToParents personId) ({[personId]} ∪ visible)
  end.

Fixpoint addDescendants (fuel : nat) (parentToChildren : gmap string (list string))
    (personId : string) (visible : gset string) : option (gset string) :=
  match fuel with
  | O => None
  | S fuel' =>
      forEachM (addDescendants fuel' parentToChildren)
        (getOrEmpty parentToChildren personId) ({[personId]} ∪ visible)
  end.

(** [people.forEach((p) => visible.add(p.id))] *)
Definition addAllPeople (people : list Person.t) (visible : gset string)
  : gset string :=
  foldl (λ visible p, {[Person.id p]} ∪ visible) visible people.

Definition getVisiblePeopleIds (fuel : nat) (data : TreeData) (idx : Index)
    (collapsedNodes : list string) (viewMode : ViewMode)
    (focusPersonId : option string) : option (gset string) :=
  match viewMode, truthy focusPersonId with
  | all, _ =>
      forEachM (hideDescendants fuel (parentToChildren idx)) collapsedNodes
        (addAllPeople (people data) ∅)
  | ancestors, Some focus => addAncestors fuel (childToParents idx) focus ∅
  | descendants, Some focus => addDescendants fuel (parentToChildren idx) focus ∅
  | _, _ => Some (addAllPeople (people data) ∅)
  end.

(** The resolver as the rest of the engine sees it: index built from the
    same data. *)
Definition visibleIds (fuel : nat) (data : TreeData) (collapsedNodes : list string)
    (viewMode : ViewMode) (focusPersonId : option string) : option (gset string) :=
  getVisiblePeopleIds fuel data (buildIndex data) collapsedNodes viewMode focusPersonId.

(** ** Generational layout (lines 329-367) *)

(** [people.filter((p) => visibleIds.has(p.id))] *)
Definition visiblePeopleOf (visible : gset string) (people : list Person.t)
  : list Person.t :=
  filter (λ p, Person.id p ∈ visible) people.

(** [p.generation || 1]: a missing generation and generation 0 are falsy. *)
Definition generationOf (p : Person.t) : Z :=
  match Person.generation p with
  | Some g => if decide (g = 0) then 1 else g
  | None => 1
  end.

(** [if (!m.has(gen)) m.set(gen, []); m.get(gen)!.push(p)] *)
Definition pushPerson (m : gmap Z (list Person.t)) (p : Person.t)
  : gmap Z (list Person.t) :=
  let gen := generationOf p in
  let m1 := match m !! gen with
            | Some _ => m
            | None => <[gen := []]> m
            end in
  <[gen := default [] (m1 !! gen) ++ [p]]> m1.

Definition groupByGeneration (visiblePeople : list Person.t)
  : gmap Z (list Person.t) :=
  foldl pushPerson ∅ visiblePeople.

(** [[...byGeneration.keys()].sort((a, b) => a - b)].  The keys of a map are
    pairwise distinct, so the ascending order of them is unique and does not
    depend on the order in which the map enumerates them. *)
Definition generationsOf (byGeneration : gmap Z (list Person.t)) : list Z :=
  merge_sort Z.le (map fst (map_to_list byGeneration)).

(** [(parentToChildren.get(id) || []).some((cid) => people.some((p) => p.id === cid))] *)
Definition hasChildrenOf (people : list Person.t)
    (parentToChildren : gmap string (list string)) (personId : string) : bool :=
  existsb (λ cid, existsb (λ p, bool_decide (Person.id p = cid)) people)
    (getOrEmpty parentToChildren personId).

(** The body of [generations.forEach((gen, genIndex) => ...)]. *)
Definition layoutRow (people : list Person.t)
    (parentToChildren : gmap string (list string)) (collapsedNodes : list string)
    (genIndex : nat) (genPeople : list Person.t) : list TreeNodeData.t :=
  let y := Z.of_nat genIndex * LEVEL_HEIGHT + 20 in
  let totalWidth :=
    Z.of_nat (length genPeople) * (NODE_WIDTH + SIBLING_GAP) - SIBLING_GAP in
  let startX := (- totalWidth) / 2 in
  imap (λ i person,
          {| TreeNodeData.person := person;
             TreeNodeData.x := startX + Z.of_nat i * (NODE_WIDTH + SIBLING_GAP);
             TreeNodeData.y := y;
             TreeNodeData.isCollapsed := bool_decide (Person.id person ∈ collapsedNodes);
             TreeNodeData.hasChildren :=
               hasChildrenOf people parentToChildren (Person.id person);
             TreeNodeData.isVisible := true |})
       genPeople.

Definition layoutNodes (people : list Person.t)
    (parentToChildren : gmap string (list string)) (collapsedNodes : list string)
    (visiblePeople : list Person.t) : list TreeNodeData.t :=
  let byGeneration := groupByGeneration visiblePeople in
  mjoin
    (imap (λ genIndex gen,
             layoutRow people parentToChildren collapsedNodes genIndex
               (default [] (byGeneration !! gen)))
          (generationsOf byGeneration)).

(** ** Connections (lines 369-420) *)

(** [new Map(nodes.map((n) => [n.person.id, { x: n.x, y: n.y }]))]: a later
    entry for the same key replaces an earlier one. *)
Definition personPositionsOf (nodes : list TreeNodeData.t) : gmap string (Z * Z) :=
  foldl (λ m n,
           <[Person.id (TreeNodeData.person n) :=
               (TreeNodeData.x n, TreeNodeData.y n)]> m)
        ∅ nodes.

(** [id ? personPositions.get(id) : null] *)
Definition positionOf (personPositions : gmap string (Z * Z))
    (i : option string) : option (Z * Z) :=
  match truthy i with
  | Some i => personPositions !! i
  | None => None
  end.

Definition coupleConnection (personPositions : gmap string (Z * Z))
    (family : Family.t) : list TreeConnectionData.t :=
  match positionOf personPositions (Family.father_id family),
        positionOf personPositions (Family.mother_id family) with
  | Some fatherPos, Some motherPos =>
      [ {| TreeConnectionData.id := "couple-" +:+ Family.id family;
           TreeConnectionData.x1 := fatherPos.1 + NODE_WIDTH / 2;
           TreeConnectionData.y1 := fatherPos.2 + NODE_HEIGHT / 2;
           TreeConnectionData.x2 := motherPos.1 + NODE_WIDTH / 2;
           TreeConnectionData.y2 := motherPos.2 + NODE_HEIGHT / 2;
           TreeConnectionData.type := couple;
           TreeConnectionData.isVisible := true |} ]
  | _, _ => []
  end.

(** [parentX] and [parentY] (lines 390-397); [None] is [null]/[undefined]. *)
Definition parentXOf (fatherPos motherPos : option (Z * Z)) : option Z :=
  match fatherPos, motherPos with
  | Some f, Some m => Some ((f.1 + m.1) / 2 + NODE_WIDTH / 2)
  | Some f, None => Some (f.1 + NODE_WIDTH / 2)
  | None, Some m => Some (m.1 + NODE_WIDTH / 2)
  | None, None => None
  end.

Definition parentYOf (fatherPos motherPos : option (Z * Z)) : option Z :=
  match fatherPos with
  | Some f => Some f.2
  | None => snd <$> motherPos
  end.

(** [parentId && collapsedNodes.has(parentId)] with
    [parentId = family.father_id || family.mother_id] (lines 400-401). *)
Definition isParentCollapsed (collapsedNodes : list string) (family : Family.t)
  : bool :=
  match truthy (orElse (Family.father_id family) (Family.mother_id family)) with
  | Some parentId => bool_decide (parentId ∈ collapsedNodes)
  | None => false
  end.

Definition childConnection (personPositions : gmap string (Z * Z))
    (family : Family.t) (parentX parentY : Z) (child : Child.t)
  : list TreeConnectionData.t :=
  match personPositions !! Child.person_id child with
  | Some childPos =>
      [ {| TreeConnectionData.id :=
             "child-" +:+ Family.id family +:+ "-" +:+ Child.person_id child;
           TreeConnectionData.x1 := parentX;
           TreeConnectionData.y1 := parentY + NODE_HEIGHT;
           TreeConnectionData.x2 := childPos.1 + NODE_WIDTH / 2;
           TreeConnectionData.y2 := childPos.2;
           TreeConnectionData.type := parent_child;
           TreeConnectionData.isVisible := true |} ]
  | None => []
  end.

Definition childConnections (personPositions : gmap string (Z * Z))
    (collapsedNodes : list string) (children : list Child.t) (family : Family.t)
  : list TreeConnectionData.t :=
  let fatherPos := positionOf personPositions (Family.father_id family) in
  let motherPos := positionOf personPositions (Family.mother_id family) in
  match parentXOf fatherPos motherPos, parentYOf fatherPos motherPos with
  | Some parentX, Some parentY =>
      if isParentCollapsed collapsedNodes family then []
      else
        mjoin (childConnection personPositions family parentX parentY
                 <$> familyChildrenOf children family)
  | _, _ => []
  end.

(** The body of the second [families.forEach]: the connections one family
    pushes, in the order it pushes them. *)
Definition familyConnections (personPositions : gmap string (Z * Z))
    (collapsedNodes : list string) (children : list Child.t) (family : Family.t)
  : list TreeConnectionData.t :=
  coupleConnection personPositions family
  ++ childConnections personPositions collapsedNodes children family.

Definition buildConnections (data : TreeData) (collapsedNodes : list string)
    (nodes : list TreeNodeData.t) : list TreeConnectionData.t :=
  mjoin (familyConnections (personPositionsOf nodes) collapsedNodes
           (children data)
           <$> families data).

(** ** Bounds (lines 422-438) and the whole function *)

Definition boundsOf (nodes : list TreeNodeData.t) : Z * Z * Z :=
  foldl (λ '(minX, maxX, maxY) n,
           (Z.min minX (TreeNodeData.x n),
            Z.max maxX (TreeNodeData.x n + NODE_WIDTH),
            Z.max maxY (TreeNodeData.y n + NODE_HEIGHT)))
        (0, 0, 0) nodes.

Definition layoutOf (data : TreeData) (idx : Index) (collapsedNodes : list string)
    (visible : gset string) : TreeLayout :=
  let visiblePeople := visiblePeopleOf visible (people data) in
  let nodes :=
    layoutNodes (people data) (parentToChildren idx) collapsedNodes visiblePeople in
  let connections := buildConnections data collapsedNodes nodes in
  let '(minX, maxX, maxY) := boundsOf nodes in
  {| nodes := nodes;
     connections := connections;
     width := maxX - minX + 100;
     height := maxY + 50;
     offsetX := - minX + 50 |}.

Definition buildTreeLayout (fuel : nat) (data : TreeData)
    (collapsedNodes : list string) (viewMode : ViewMode)
    (focusPersonId : option string) : option TreeLayout :=
  let idx := buildIndex data in
  layoutOf data idx collapsedNodes
    <$> getVisiblePeopleIds fuel data idx collapsedNodes viewMode focusPersonId.

(** * The rest of the tree component *)

(** The updater [handleToggleCollapse] passes to [setCollapsedNodes]
    (lines 477-485): [Set.delete] keeps the order of the other members,
    [Set.add] appends. *)
Definition toggleCollapsed (personId : string) (prev : list string)
  : list string :=
  if decide (personId ∈ prev) then filter (λ i, i ≠ personId) prev
  else prev ++ [personId].

(** ** [TreeConnection] (lines 158-192): what is drawn for a connection *)

Inductive SvgElement :=
  | SvgLine (x1 y1 x2 y2 : Z)
  | SvgPath (d : string).

(** [y1 + (y2 - y1) / 2] (line 179) *)
Definition midYOf (y1 y2 : Z) : Z := y1 + (y2 - y1) / 2.

Definition TreeConnection (connection : TreeConnectionData.t) : SvgElement :=
  let x1 := TreeConnectionData.x1 connection in
  let y1 := TreeConnectionData.y1 connection in
  let x2 := TreeConnectionData.x2 connection in
  let y2 := TreeConnectionData.y2 connection in
  match TreeConnectionData.type connection with
  | couple => SvgLine x1 y1 x2 y2
  | parent_child =>
      let midY := midYOf y1 y2 in
      SvgPath ("M " +:+ pretty x1 +:+ " " +:+ pretty y1
               +:+ " L " +:+ pretty x1 +:+ " " +:+ pretty midY
               +:+ " L " +:+ pretty x2 +:+ " " +:+ pretty midY
               +:+ " L " +:+ pretty x2 +:+ " " +:+ pretty y2)
  end.

(** ** The initials of [TreeNode] (lines 93-98)

    A display name is a sequence of UTF-16 code units, of a type [U] left
    open with its space; [toUpperCase] is the method of that name. *)

Section initials.
Context {U : Type} `{EqDecision U} (space : U) (toUpperCase : list U → list U).

(** [name.split(' ')] *)
Fixpoint splitSpace (name : list U) : list (list U) :=
  match name with
  | [] => [[]]
  | u :: name' =>
      if decide (u = space) then [] :: splitSpace name'
      else match splitSpace name' with
           | word :: words => (u :: word) :: words
           | [] => [[u]]
           end
  end.

(** [words.slice(-2)] *)
Definition lastTwo {A} (words : list A) : list A :=
  drop (length words - 2) words.

(** [.map((n) => n[0]).slice(-2).join('')]: [n[0]] is [undefined] for an
    empty word, and [join] renders [undefined] as the empty string. *)
Definition initialsBeforeUpperCase (name : list U) : list U :=
  mjoin (option_list <$> lastTwo (head <$> splitSpace name)).

Definition initialsOf (name : list U) : list U :=
  toUpperCase (initialsBeforeUpperCase name).

(** [initials || <User />]: the icon stands in for an empty string. *)
Definition showsUserIcon (name : list U) : bool :=
  bool_decide (length (initialsOf name) = 0%nat).
End initials.

(** ** The state of the [FamilyTree] component and its handlers
    (lines 445-553)

    [scale] is a floating-point number stepped by 0.1 and 0.05; it is left
    out, with the handlers that compute with it (zoom in, zoom out, wheel,
    minimap click).  Pointer coordinates are taken to be integers. *)

Module FamilyTree.
Record State := mkState {
  pan : Z * Z;
  isPanning : bool;
  panStart : Z * Z;
  selectedPerson : option Person.t;
  collapsedNodes : list string;
  viewMode : ViewMode;
  showMinimap : bool
}.

(** The initial values of the [useState] calls (lines 449-458). *)
Definition initial : State :=
  mkState (0, 0) false (0, 0) None [] all true.

(** [handleReset] (lines 471-474), without [setScale(1)]. *)
Definition handleReset (st : State) : State :=
  mkState (0, 0) (isPanning st) (panStart st) (selectedPerson st)
    (collapsedNodes st) (viewMode st) (showMinimap st).

(** [handleToggleCollapse] (lines 476-486) *)
Definition handleToggleCollapse (personId : string) (st : State) : State :=
  mkState (pan st) (isPanning st) (panStart st) (selectedPerson st)
    (toggleCollapsed personId (collapsedNodes st))
    (viewMode st) (showMinimap st).

(** [handleMouseDown] (lines 489-494) *)
Definition handleMouseDown (button clientX clientY : Z) (st : State) : State :=
  if decide (button = 0) then
    mkState (pan st) true (clientX - (pan st).1, clientY - (pan st).2)
      (selectedPerson st) (collapsedNodes st) (viewMode st) (showMinimap st)
  else st.

(** [handleMouseMove] (lines 496-503) *)
Definition handleMouseMove (clientX clientY : Z) (st : State) : State :=
  if isPanning st then
    mkState (clientX - (panStart st).1, clientY - (panStart st).2)
      (isPanning st) (panStart st) (selectedPerson st) (collapsedNodes st)
      (viewMode st) (showMinimap st)
  else st.

(** [handleMouseUp] (lines 505-507), also [handleTouchEnd] (lines 529-531) *)
Definition handleMouseUp (st : State) : State :=
  mkState (pan st) false (panStart st) (selectedPerson st) (collapsedNodes st)
    (viewMode st) (showMinimap st).

(** [handleTouchStart] (lines 510-518): [touches] are the client
    coordinates of the touch points. *)
Definition handleTouchStart (touches : list (Z * Z)) (st : State) : State :=
  match touches with
  | [t] =>
      mkState (pan st) true (t.1 - (pan st).1, t.2 - (pan st).2)
        (selectedPerson st) (collapsedNodes st) (viewMode st) (showMinimap st)
  | _ => st
  end.

(** [handleTouchMove] (lines 520-527) *)
Definition handleTouchMove (touches : list (Z * Z)) (st : State) : State :=
  match isPanning st, touches with
  | true, [t] =>
      mkState (t.1 - (panStart st).1, t.2 - (panStart st).2)
        (isPanning st) (panStart st) (selectedPerson st) (collapsedNodes st)
        (viewMode st) (showMinimap st)
  | _, _ => st
  end.

(** [setSelectedPerson], passed to every node as [onSelect] (line 713). *)
Definition setSelectedPerson (person : Person.t) (st : State) : State :=
  mkState (pan st) (isPanning st) (panStart st) (Some person) (collapsedNodes st)
    (viewMode st) (showMinimap st).

(** [setViewMode] *)
Definition setViewMode (mode : ViewMode) (st : State) : State :=
  mkState (pan st) (isPanning st) (panStart st) (selectedPerson st)
    (collapsedNodes st) mode (showMinimap st).

(** [handleViewModeChange] (lines 548-553); [data] is [undefined] while the
    records are loading. *)
Definition handleViewModeChange (data : option TreeData) (mode : ViewMode)
    (st : State) : State :=
  let st1 := setViewMode mode st in
  match mode, selectedPerson st, people <$> data with
  | (ancestors | descendants), None, Some (first :: _) =>
      setSelectedPerson first st1
  | _, _, _ => st1
  end.


(** What the user does with the tree, once it is shown. *)
Inductive Event :=
  | ToggleCollapse (personId : string)
  | Select (person : Person.t)
  | ViewModeChange (mode : ViewMode)
  | ViewAll
  | Reset
  | MouseDown (button clientX clientY : Z)
  | MouseMove (clientX clientY : Z)
  | MouseUp
  | TouchStart (touches : list (Z * Z))
  | TouchMove (touches : list (Z * Z))
  | TouchEnd.

Definition handle (data : TreeData) (st : State) (e : Event) : State :=
  match e with
  | ToggleCollapse personId => handleToggleCollapse personId st
  | Select person => setSelectedPerson person st
  | ViewModeChange mode => handleViewModeChange (Some data) mode st
  | ViewAll => setViewMode all st
  | Reset => handleReset st
  | MouseDown button x y => handleMouseDown button x y st
  | MouseMove x y => handleMouseMove x y st
  | MouseUp => handleMouseUp st
  | TouchStart touches => handleTouchStart touches st
  | TouchMove touches => handleTouchMove touches st
  | TouchEnd => handleMouseUp st
  end.

End FamilyTree.

(** * The users page *)

(** ** The role dialog
    (src/frontend/src/app/(main)/admin/users/page.tsx, lines 66-97) *)

Module UsersPage.
Inductive UserRole := admin | editor | viewer.

#[global] Instance UserRole_eq_dec : EqDecision UserRole.
Proof. solve_decision. Defined.

Record ConfirmDialog := mkConfirmDialog {
  open : bool;
  userId : string;
  currentRole : UserRole;
  newRole : UserRole;
  userName : string
}.

(** What a handler does besides setting state. *)
Inductive Effect :=
  | MutateAsync (userId : string) (role : UserRole)
  | ToastSuccess (userName : string)
  | ToastError
  | ConsoleError.

(** [handleRoleChange] (lines 77-80) *)
Definition handleRoleChange (userId : string) (newRole currentRole : UserRole)
    (userName : string) (confirmDialog : option ConfirmDialog)
  : option ConfirmDialog :=
  if decide (newRole = currentRole) then confirmDialog
  else Some (mkConfirmDialog true userId currentRole newRole userName).

(** [confirmRoleChange] (lines 82-97); [resolves] tells whether the promise
    of [updateRole.mutateAsync] resolves or rejects. *)
Definition confirmRoleChange (resolves : bool)
    (confirmDialog : option ConfirmDialog)
  : list Effect * option ConfirmDialog :=
  match confirmDialog with
  | None => ([], confirmDialog)
  | Some dialog =>
      (MutateAsync (userId dialog) (newRole dialog)
         :: (if resolves then [ToastSuccess (userName dialog)]
             else [ToastError; ConsoleError]),
       None)
  end.

(** [onOpenChange] of the dialog (line 273): [!open && setConfirmDialog(null)] *)
Definition onOpenChange (isOpen : bool) (confirmDialog : option ConfirmDialog)
  : option ConfirmDialog :=
  if isOpen then confirmDialog else None.

Inductive Event :=
  | RoleChange (userId : string) (newRole currentRole : UserRole) (userName : string)
  | Confirm (resolves : bool)
  | OpenChange (isOpen : bool).

Definition handle (st : list Effect * option ConfirmDialog) (e : Event)
  : list Effect * option ConfirmDialog :=
  match e with
  | RoleChange userId newRole currentRole userName =>
      (st.1, handleRoleChange userId newRole currentRole userName st.2)
  | Confirm resolves =>
      let '(effects, dialog) := confirmRoleChange resolves st.2 in
      (st.1 ++ effects, dialog)
  | OpenChange isOpen => (st.1, onOpenChange isOpen st.2)
  end.

Definition isMutateAsync (e : Effect) : bool :=
  match e with MutateAsync _ _ => true | _ => false end.

(** The role a user has according to the select boxes that were used: the
    [currentRole] and [userId] of the [RoleChange] events. *)
Definition requested (events : list Event) (user : string) (role : UserRole)
  : Prop :=
  ∃ current name, RoleChange user role current name ∈ events ∧ role ≠ current.
End UsersPage.

(** * Notions used to state the properties *)

(** ** Accumulating a union over a list

    [collect g l acc] adds [g a] to [acc] for every [a] of [l], and is
    undefined as soon as one [g a] is. *)
Definition collect {A : Type} (g : A → option (gset string)) (l : list A)
    (acc : gset string) : option (gset string) :=
  forEachM (λ a acc, (λ r, r ∪ acc) <$> g a) l acc.

(** ** The identifiers reachable in one or more steps of an adjacency map

    With fuel for the depth of the walk, like the closures it describes. *)
Fixpoint reach (fuel : nat) (m : gmap string (list string)) (p : string)
  : option (gset string) :=
  match fuel with
  | O => None
  | S fuel' =>
      collect (λ c, (λ r, {[c]} ∪ r) <$> reach fuel' m c) (getOrEmpty m p) ∅
  end.

(** ** The records behind the index *)

(** [linked children family c]: some child link attaches [c] to [family]. *)
Definition linked (children : list Child.t) (family : Family.t) (c : string) : Prop :=
  c ∈ Child.person_id <$> familyChildrenOf children family.

#[global] Instance linked_dec children family c : Decision (linked children family c).
Proof. unfold linked. apply _. Defined.

(** [parentOf data p c]: some family lists [p] as a recognized parent and has a
    child link to [c]. *)
Definition parentOf (data : TreeData) (p c : string) : Prop :=
  ∃ family, family ∈ families data ∧ p ∈ parentIdsOf family
            ∧ linked (children data) family c.

Definition peopleIds (people : list Person.t) : gset string :=
  list_to_set (Person.id <$> people).

(** [ranked rank bound data]: along every recorded parent/child pair the
    parent's rank is strictly above the child's, and at most [bound].  A
    record set has such a ranking exactly when its parent/child pairs form
    no cycle. *)
Definition ranked (rank : string → nat) (bound : nat) (data : TreeData) : Prop :=
  Forall (λ family,
            Forall (λ link,
                      Forall (λ p, (rank (Child.person_id link) < rank p ≤ bound)%nat)
                             (parentIdsOf family))
                   (familyChildrenOf (children data) family))
         (families data).

#[global] Instance ranked_dec rank bound data : Decision (ranked rank bound data).
Proof. unfold ranked. apply _. Defined.

(** ** Rows and placed nodes *)

(** The visible people of one generation, in record order. *)
Definition generationRow (visiblePeople : list Person.t) (gen : Z) : list Person.t :=
  filter (λ p, generationOf p = gen) visiblePeople.

(** The node [layoutRow] builds for the [i]-th person of a row of [count]. *)
Definition placeNode (people : list Person.t) (p2c : gmap string (list string))
    (collapsed : list string) (genIndex count i : nat) (person : Person.t)
  : TreeNodeData.t :=
  {| TreeNodeData.person := person;
     TreeNodeData.x :=
       (- (Z.of_nat count * (NODE_WIDTH + SIBLING_GAP) - SIBLING_GAP)) / 2
       + Z.of_nat i * (NODE_WIDTH + SIBLING_GAP);
     TreeNodeData.y := Z.of_nat genIndex * LEVEL_HEIGHT + 20;
     TreeNodeData.isCollapsed := bool_decide (Person.id person ∈ collapsed);
     TreeNodeData.hasChildren := hasChildrenOf people p2c (Person.id person);
     TreeNodeData.isVisible := true |}.

#[global] Instance ConnectionType_eq_dec : EqDecision ConnectionType.
Proof. solve_decision. Defined.

Definition isCouple (c : TreeConnectionData.t) : Prop :=
  TreeConnectionData.type c = couple.
Definition isParentChild (c : TreeConnectionData.t) : Prop :=
  TreeConnectionData.type c = parent_child.
#[global] Instance isCouple_dec c : Decision (isCouple c).
Proof. unfold isCouple. apply _. Defined.
#[global] Instance isParentChild_dec c : Decision (isParentChild c).
Proof. unfold isParentChild. apply _. Defined.

(** Both parents of the family are placed. *)
Definition bothPlaced (positions : gmap string (Z * Z)) (family : Family.t) : Prop :=
  is_Some (positionOf positions (Family.father_id family))
  ∧ is_Some (positionOf positions (Family.mother_id family)).
(** The child of the link is placed. *)
Definition childPlaced (positions : gmap string (Z * Z)) (link : Child.t) : Prop :=
  is_Some (positions !! Child.person_id link).
#[global] Instance bothPlaced_dec positions family : Decision (bothPlaced positions family).
Proof. unfold bothPlaced. apply _. Defined.
#[global] Instance childPlaced_dec positions link : Decision (childPlaced positions link).
Proof. unfold childPlaced. apply _. Defined.

(** ** Comparing two runs

    Same nodes, same bounds, same set of connections, same couple
    connections; the runs return together. *)
Definition sameDrawing (o o' : option TreeLayout) : Prop :=
  match o, o' with
  | Some out, Some out' =>
      nodes out = nodes out'
      ∧ width out = width out' ∧ height out = height out'
      ∧ offsetX out = offsetX out'
      ∧ (∀ c, c ∈ connections out ↔ c ∈ connections out')
      ∧ filter isCouple (connections out) = filter isCouple (connections out')
  | None, None => True
  | _, _ => False
  end.

(** ** Chains of recorded parent/child pairs *)

(** [edge m p c]: [c] is listed under [p] in the adjacency map [m]. *)
Definition edge (m : gmap string (list string)) (p c : string) : Prop :=
  c ∈ getOrEmpty m p.

(** [descendantOf data p x]: a chain of recorded parent/child pairs leads from
    [p] down to [x]. *)
Definition descendantOf (data : TreeData) : relation string := tc (parentOf data).

(** [ancestorOf data c x]: a chain of recorded parent/child pairs leads from
    [c] up to [x]. *)
Definition ancestorOf (data : TreeData) : relation string :=
  tc (flip (parentOf data)).

(** No child is linked to two families with different recognized parents. *)
Definition singleParentage (data : TreeData) : Prop :=
  Forall (λ family1,
    Forall (λ family2,
      Forall (λ link,
                linked (children data) family2 (Child.person_id link) →
                parentIdsOf family1 = parentIdsOf family2)
             (familyChildrenOf (children data) family1))
      (families data))
    (families data).

#[global] Instance singleParentage_dec data : Decision (singleParentage data).
Proof. unfold singleParentage. apply _. Defined.

(** [lastFamilyOf data c]: the last family, in list order, with a child link
    to [c], if there is one. *)
Definition lastFamilyOf (data : TreeData) (c : string) : option Family.t :=
  last (filter (λ family, linked (children data) family c) (families data)).

(** [lastParentOf data p c]: [p] is a recognized parent of the last family,
    in list order, with a child link to [c]. *)
Definition lastParentOf (data : TreeData) (p c : string) : Prop :=
  ∃ family, lastFamilyOf data c = Some family ∧ p ∈ parentIdsOf family.

(** ** Invariants of the component states *)


Definition isMove (e : FamilyTree.Event) : Prop :=
  match e with FamilyTree.MouseMove _ _ => True | _ => False end.

(** What the handlers of the users page keep: an open dialog, and every
    update sent so far, asks for a role that differs from the current one. *)
Definition dialogChangesRole (events : list UsersPage.Event)
    (st : list UsersPage.Effect * option UsersPage.ConfirmDialog) : Prop :=
  (∀ d, st.2 = Some d →
        UsersPage.open d = true
        ∧ UsersPage.requested events (UsersPage.userId d) (UsersPage.newRole d))
  ∧ (∀ user role, UsersPage.MutateAsync user role ∈ st.1 →
                  UsersPage.requested events user role).

(** * Record sets used as examples *)

(** Three generations in a line: A is the parent of B, B of C. *)
Definition linearData : TreeData :=
  mkTreeData
    [Person.mk "A" (Some 1); Person.mk "B" (Some 2); Person.mk "C" (Some 3)]
    [Family.mk "F" (Some "A") None; Family.mk "G" (Some "B") None]
    [Child.mk "F" "B"; Child.mk "G" "C"].

Definition linearRank (i : string) : nat :=
  if decide (i = "A") then 2%nat else if decide (i = "B") then 1%nat else 0%nat.

(** Corrupted records: A is recorded as a child of the family A is the
    father of. *)
Definition cyclicData : TreeData :=
  mkTreeData [Person.mk "A" (Some 1)] [Family.mk "F" (Some "A") None]
    [Child.mk "F" "A"].

(** A couple F, M with one child C. *)
Definition coupleData : TreeData :=
  mkTreeData
    [Person.mk "F" (Some 1); Person.mk "M" (Some 1); Person.mk "C" (Some 2)]
    [Family.mk "U" (Some "F") (Some "M")]
    [Child.mk "U" "C"].

(** One parent A, one child B, and the child link recorded twice. *)
Definition duplicateLinkData : TreeData :=
  mkTreeData [Person.mk "A" (Some 1); Person.mk "B" (Some 2)]
    [Family.mk "F" (Some "A") None]
    [Child.mk "F" "B"; Child.mk "F" "B"].

Definition singleLinkData : TreeData :=
  mkTreeData [Person.mk "A" (Some 1); Person.mk "B" (Some 2)]
    [Family.mk "F" (Some "A") None]
    [Child.mk "F" "B"].

(** B's recorded father X is not among the people. *)
Definition danglingParentData : TreeData :=
  mkTreeData [Person.mk "B" (Some 2)] [Family.mk "F" (Some "X") None]
    [Child.mk "F" "B"].

(** C is recorded as a child of two unions, U1 (father A) and then U2
    (father B). *)
Definition twoUnionsData : TreeData :=
  mkTreeData
    [Person.mk "A" (Some 1); Person.mk "B" (Some 1); Person.mk "C" (Some 2)]
    [Family.mk "U1" (Some "A") None; Family.mk "U2" (Some "B") None]
    [Child.mk "U1" "C"; Child.mk "U2" "C"].

(** * Lemmas *)

Section forEachM.
Context {A S : Type}.
Implicit Types (body : A → S → option S) (l : list A) (s : S).

Lemma forEachM_app body l1 l2 s :
  forEachM body (l1 ++ l2) s = forEachM body l1 s ≫= forEachM body l2.
Proof.
  revert s. induction l1 as [|a l1 IH]; intros s; simpl; [done|].
  destruct (body a s); simpl; auto.
Qed.

Lemma forEachM_ext body1 body2 l s :
  (∀ a s, a ∈ l → body1 a s = body2 a s) →
  forEachM body1 l s = forEachM body2 l s.
Proof.
  revert s. induction l as [|a l IH]; intros s Hext; simpl; [done|].
  rewrite Hext by left. destruct (body2 a s); [|done].
  apply IH. intros; apply Hext. by right.
Qed.
End forEachM.

(** Accumulating a union: the run succeeds exactly when every element's
    contribution is defined, and then collects all of them. *)
Section collect.
Context {A : Type} (g : A → option (gset string)).

Lemma collect_is_Some l acc :
  is_Some (collect g l acc) ↔ ∀ a, a ∈ l → is_Some (g a).
Proof.
  revert acc. induction l as [|a l IH]; intros acc; simpl.
  - split; [intros _ a Ha; inversion Ha | eauto].
  - unfold collect in *; simpl. destruct (g a) as [r|] eqn:Hg; simpl.
    + rewrite IH. split.
      * intros H b [->|Hb]%elem_of_cons; eauto.
      * intros H b Hb. apply H. by right.
    + split; [intros [? ?]; done|].
      intros H. specialize (H a (list_elem_of_here _ _)). rewrite Hg in H.
      by destruct H.
Qed.

Lemma collect_elem_of l acc R x :
  collect g l acc = Some R →
  x ∈ R ↔ x ∈ acc ∨ ∃ a r, a ∈ l ∧ g a = Some r ∧ x ∈ r.
Proof.
  revert acc. induction l as [|a l IH]; intros acc; unfold collect in *; simpl.
  - intros [= <-]. split; [auto|]. intros [?|(a & r & Ha & _)]; [done|].
    inversion Ha.
  - destruct (g a) as [r|] eqn:Hg; simpl; [|done].
    intros HR. rewrite (IH _ HR). rewrite elem_of_union. split.
    + intros [[Hx|Hx]|(b & rb & Hb & Hgb & Hx)]; [right|by left|right].
      * exists a, r. split; [left|done].
      * exists b, rb. split; [by right|done].
    + intros [Hx|(b & rb & [->|Hb]%elem_of_cons & Hgb & Hx)].
      * left; by right.
      * left; left. congruence.
      * right. eauto.
Qed.
End collect.

Section collect_compare.
Context {A : Type} (g g' : A → option (gset string)).

Lemma collect_mono l acc R :
  (∀ a r, a ∈ l → g a = Some r → g' a = Some r) →
  collect g l acc = Some R → collect g' l acc = Some R.
Proof.
  revert acc. induction l as [|a l IH]; intros acc Hgg'; unfold collect in *;
    simpl; [done|].
  destruct (g a) as [r|] eqn:Hg; simpl; [|done].
  rewrite (Hgg' a r) by (done || left). simpl.
  apply IH. intros b rb Hb. apply Hgg'. by right.
Qed.

Lemma collect_set_ext l l' acc :
  (∀ a, a ∈ l ↔ a ∈ l') → (∀ a, g a = g' a) →
  collect g l acc = collect g' l' acc.
Proof.
  intros Hl Hg.
  destruct (collect g l acc) as [R|] eqn:HR,
           (collect g' l' acc) as [R'|] eqn:HR'.
  - f_equal. apply set_eq. intros x.
    rewrite (collect_elem_of g _ _ _ x HR), (collect_elem_of g' _ _ _ x HR').
    split; (intros [?|(a & r & Ha & Hga & Hx)]; [by left|right]);
      exists a, r; rewrite ?Hl, ?Hg in *; done.
  - assert (is_Some (collect g' l' acc)) as [? ?]; [|congruence].
    apply collect_is_Some. intros a Ha. rewrite <- Hg.
    eapply (proj1 (collect_is_Some g l acc)); [eauto|]. by apply Hl.
  - assert (is_Some (collect g l acc)) as [? ?]; [|congruence].
    apply collect_is_Some. intros a Ha. rewrite Hg.
    eapply (proj1 (collect_is_Some g' l' acc)); [eauto|]. by apply Hl.
  - done.
Qed.
End collect_compare.

Section reach.
Context (m : gmap string (list string)).

Lemma reach_S_is_Some fuel p :
  is_Some (reach (S fuel) m p) ↔
  ∀ c, c ∈ getOrEmpty m p → is_Some (reach fuel m c).
Proof.
  simpl. rewrite collect_is_Some. apply forall_proper; intros c.
  by rewrite fmap_is_Some.
Qed.

Lemma reach_S_elem_of fuel p R x :
  reach (S fuel) m p = Some R →
  x ∈ R ↔ ∃ c, c ∈ getOrEmpty m p ∧
               (x = c ∨ ∃ r, reach fuel m c = Some r ∧ x ∈ r).
Proof.
  simpl. intros HR. rewrite (collect_elem_of _ _ _ _ x HR). split.
  - intros [Hx|(c & r & Hc & Hr & Hx)]; [set_solver|].
    exists c. split; [done|].
    destruct (reach fuel m c) as [rc|]; simplify_eq/=.
    apply elem_of_union in Hx as [->%elem_of_singleton|Hx]; eauto.
  - intros (c & Hc & Hx). right.
    destruct Hx as [->|(r & Hr & Hx)].
    + pose proof (proj1 (collect_is_Some _ _ _) (mk_is_Some _ _ HR) c Hc) as [rc Hrc].
      exists c, rc. split; [done|]. split; [done|].
      destruct (reach fuel m c); simplify_eq/=. set_solver.
    + exists c, ({[c]} ∪ r). rewrite Hr. split; [done|]. split; [done|]. set_solver.
Qed.

Lemma reach_mono fuel fuel' p R :
  (fuel ≤ fuel')%nat → reach fuel m p = Some R → reach fuel' m p = Some R.
Proof.
  revert fuel' p R. induction fuel as [|fuel IH]; intros fuel' p R Hle; [done|].
  destruct fuel' as [|fuel']; [lia|]. simpl.
  apply collect_mono. intros c r _.
  destruct (reach fuel m c) as [rc|] eqn:Hrc; simpl; [|done].
  rewrite (IH fuel' c rc) by (done || lia). done.
Qed.

Lemma hideDescendants_reach fuel p v :
  hideDescendants fuel m p v = (λ R, v ∖ R) <$> reach fuel m p.
Proof.
  revert p v. induction fuel as [|fuel IH]; intros p v; [done|]. simpl.
  generalize (getOrEmpty m p). intros l.
  assert (∀ acc, forEachM (λ c w, hideDescendants fuel m c (w ∖ {[c]})) l (v ∖ acc)
                 = (λ R, v ∖ R) <$>
                   collect (λ c, (λ r, {[c]} ∪ r) <$> reach fuel m c) l acc) as H.
  { induction l as [|c l IHl]; intros acc; [done|]. unfold collect in *. simpl.
    rewrite IH. destruct (reach fuel m c) as [r|]; simpl; [|done].
    rewrite <- IHl. f_equal. set_solver. }
  specialize (H ∅). by rewrite difference_empty_L in H.
Qed.

Lemma addAncestors_reach fuel p v :
  addAncestors fuel m p v = (λ R, {[p]} ∪ R ∪ v) <$> reach fuel m p.
Proof.
  revert p v. induction fuel as [|fuel IH]; intros p v; [done|]. simpl.
  generalize (getOrEmpty m p). intros l.
  assert (∀ acc, forEachM (addAncestors fuel m) l ({[p]} ∪ acc ∪ v)
                 = (λ R, {[p]} ∪ R ∪ v) <$>
                   collect (λ c, (λ r, {[c]} ∪ r) <$> reach fuel m c) l acc) as H.
  { induction l as [|c l IHl]; intros acc; [done|]. unfold collect in *. simpl.
    rewrite IH. destruct (reach fuel m c) as [r|]; simpl; [|done].
    rewrite <- IHl. f_equal. set_solver. }
  specialize (H ∅). rewrite <- H. f_equal. set_solver.
Qed.

Lemma addDescendants_reach fuel p v :
  addDescendants fuel m p v = (λ R, {[p]} ∪ R ∪ v) <$> reach fuel m p.
Proof. apply addAncestors_reach. Qed.

Lemma forEachM_hideDescendants fuel l v :
  forEachM (hideDescendants fuel m) l v
  = (λ R, v ∖ R) <$> collect (reach fuel m) l ∅.
Proof.
  assert (∀ acc, forEachM (hideDescendants fuel m) l (v ∖ acc)
                 = (λ R, v ∖ R) <$> collect (reach fuel m) l acc) as H.
  { induction l as [|c l IHl]; intros acc; [done|]. unfold collect in *. simpl.
    rewrite hideDescendants_reach.
    destruct (reach fuel m c) as [r|]; simpl; [|done].
    rewrite <- IHl. f_equal. set_solver. }
  specialize (H ∅). by rewrite difference_empty_L in H.
Qed.
End reach.

Lemma reach_ext m m' fuel p :
  (∀ q x, x ∈ getOrEmpty m q ↔ x ∈ getOrEmpty m' q) →
  reach fuel m p = reach fuel m' p.
Proof.
  intros Hm. revert p. induction fuel as [|fuel IH]; intros p; [done|]. simpl.
  apply collect_set_ext; [apply Hm|]. intros c. by rewrite IH.
Qed.

(** ** The relationship index in terms of the records *)

Lemma linked_exists children family c :
  linked children family c
  ↔ ∃ link, link ∈ children ∧ Child.family_id link = Family.id family
            ∧ Child.person_id link = c.
Proof.
  unfold linked, familyChildrenOf. rewrite list_elem_of_fmap.
  setoid_rewrite list_elem_of_filter. naive_solver.
Qed.

Section index.
Implicit Types (m : gmap string (list string)) (idx : Index).

Lemma getOrEmpty_pushChild c m p q :
  getOrEmpty (pushChild c m p) q
  = if decide (p = q) then getOrEmpty m q ++ [c] else getOrEmpty m q.
Proof.
  unfold getOrEmpty, pushChild. case_decide as Hpq.
  - subst q. rewrite lookup_insert_eq. simpl.
    destruct (m !! p) eqn:Hm; simpl; [by rewrite Hm|].
    by rewrite lookup_insert_eq.
  - rewrite lookup_insert_ne by done.
    destruct (m !! p); [done|]. by rewrite lookup_insert_ne.
Qed.

Lemma elem_of_foldl_pushChild c m pids q x :
  x ∈ getOrEmpty (foldl (pushChild c) m pids) q
  ↔ x ∈ getOrEmpty m q ∨ (x = c ∧ q ∈ pids).
Proof.
  revert m. induction pids as [|p pids IH]; intros m; simpl.
  - split; [auto|]. intros [?|[_ H]]; [done|inversion H].
  - rewrite IH, getOrEmpty_pushChild. case_decide as Hpq.
    + subst. rewrite elem_of_app, list_elem_of_singleton, elem_of_cons.
      naive_solver.
    + rewrite elem_of_cons. naive_solver.
Qed.

Lemma elem_of_parentToChildren_indexChildren pids idx l q x :
  x ∈ getOrEmpty (parentToChildren (foldl (indexChild pids) idx l)) q
  ↔ x ∈ getOrEmpty (parentToChildren idx) q
    ∨ (q ∈ pids ∧ x ∈ Child.person_id <$> l).
Proof.
  revert idx. induction l as [|link l IH]; intros idx; simpl.
  - split; [auto|]. intros [?|[_ H]]; [done|inversion H].
  - rewrite IH. simpl. rewrite elem_of_foldl_pushChild, elem_of_cons.
    naive_solver.
Qed.

Lemma elem_of_parentToChildren_indexFamilies children idx fams q x :
  x ∈ getOrEmpty (parentToChildren (foldl (indexFamily children) idx fams)) q
  ↔ x ∈ getOrEmpty (parentToChildren idx) q
    ∨ ∃ family, family ∈ fams ∧ q ∈ parentIdsOf family
                ∧ linked children family x.
Proof.
  revert idx. induction fams as [|fam fams IH]; intros idx; simpl.
  - split; [auto|]. intros [?|(? & H & _)]; [done|inversion H].
  - rewrite IH. unfold indexFamily.
    rewrite elem_of_parentToChildren_indexChildren.
    setoid_rewrite elem_of_cons. unfold linked. naive_solver.
Qed.

(** Parent-to-children edges are exactly the recorded parent/child pairs. *)
Lemma elem_of_parentToChildren data q x :
  x ∈ getOrEmpty (parentToChildren (buildIndex data)) q ↔ parentOf data q x.
Proof.
  unfold buildIndex. rewrite elem_of_parentToChildren_indexFamilies. simpl.
  unfold getOrEmpty. rewrite lookup_empty. simpl. unfold parentOf.
  split; [intros [H|H]; [inversion H|done]|auto].
Qed.

Lemma childToParents_indexChildren pids idx l c :
  childToParents (foldl (indexChild pids) idx l) !! c
  = if decide (c ∈ Child.person_id <$> l) then Some pids
    else childToParents idx !! c.
Proof.
  revert idx. induction l as [|link l IH]; intros idx; simpl.
  - done.
  - rewrite IH. simpl.
    destruct (decide (c ∈ Child.person_id <$> l)) as [Hin|Hnin].
    + rewrite decide_True; [done|by right].
    + destruct (decide (c = Child.person_id link)) as [->|Hne].
      * rewrite decide_True by left. by rewrite lookup_insert_eq.
      * rewrite decide_False by (rewrite elem_of_cons; naive_solver).
        by rewrite lookup_insert_ne.
Qed.

Lemma childToParents_indexFamily children idx family c :
  childToParents (indexFamily children idx family) !! c
  = if decide (linked children family c) then Some (parentIdsOf family)
    else childToParents idx !! c.
Proof.
  unfold indexFamily. rewrite childToParents_indexChildren.
  unfold linked. repeat case_decide; done.
Qed.

Lemma childToParents_indexFamilies_unlinked children idx fams c :
  (∀ family, family ∈ fams → ¬ linked children family c) →
  childToParents (foldl (indexFamily children) idx fams) !! c
  = childToParents idx !! c.
Proof.
  revert idx. induction fams as [|fam fams IH]; intros idx Hno; simpl; [done|].
  rewrite IH by (intros; apply Hno; by right).
  rewrite childToParents_indexFamily. case_decide as H; [|done].
  exfalso. eapply Hno; [left|done].
Qed.

(** Last write wins: the parents recorded for [c] are those of the last
    family, in list order, with a child link to [c]. *)
Lemma childToParents_last children idx fams1 family fams2 c :
  linked children family c →
  (∀ family', family' ∈ fams2 → ¬ linked children family' c) →
  childToParents (foldl (indexFamily children) idx (fams1 ++ family :: fams2)) !! c
  = Some (parentIdsOf family).
Proof.
  intros Hl Hno. rewrite foldl_app. simpl.
  rewrite childToParents_indexFamilies_unlinked by done.
  rewrite childToParents_indexFamily. by rewrite decide_True.
Qed.

Lemma childToParents_None children idx fams c :
  childToParents idx !! c = None →
  (∀ family, family ∈ fams → ¬ linked children family c) →
  childToParents (foldl (indexFamily children) idx fams) !! c = None.
Proof. intros H Hno. by rewrite childToParents_indexFamilies_unlinked. Qed.

Lemma childToParents_Some_inv children idx fams c ps :
  childToParents (foldl (indexFamily children) idx fams) !! c = Some ps →
  childToParents idx !! c = Some ps
  ∨ ∃ family, family ∈ fams ∧ ps = parentIdsOf family ∧ linked children family c.
Proof.
  revert idx. induction fams as [|fam fams IH]; intros idx; simpl; [auto|].
  intros [H|(f & Hf & -> & Hl)]%IH.
  - rewrite childToParents_indexFamily in H. case_decide as Hl.
    + right. exists fam. split; [left|]. split; [congruence|done].
    + by left.
  - right. exists f. split; [by right|done].
Qed.

(** Child-to-parents edges are recorded parent/child pairs (not all of
    them: see [childToParents_last]). *)
Lemma elem_of_childToParents data c p :
  p ∈ getOrEmpty (childToParents (buildIndex data)) c → parentOf data p c.
Proof.
  unfold getOrEmpty, buildIndex.
  destruct (childToParents _ !! c) as [ps|] eqn:Hps; simpl; [|by inversion 1].
  apply childToParents_Some_inv in Hps as [H|(f & Hf & -> & Hl)];
    [simpl in H; by rewrite lookup_empty in H|].
  intros Hp. by exists f.
Qed.
End index.

(** ** The visible set in terms of [reach] *)

Lemma addAllPeople_peopleIds people v :
  addAllPeople people v = peopleIds people ∪ v.
Proof.
  unfold addAllPeople, peopleIds. revert v.
  induction people as [|p people IH]; intros v; simpl; [set_solver|].
  rewrite IH. set_solver.
Qed.

Lemma elem_of_peopleIds people i :
  i ∈ peopleIds people ↔ ∃ p, p ∈ people ∧ Person.id p = i.
Proof.
  unfold peopleIds. rewrite elem_of_list_to_set, list_elem_of_fmap. naive_solver.
Qed.

Section visible.
Context (data : TreeData) (idx : Index).

Lemma getVisiblePeopleIds_all fuel collapsed focus :
  getVisiblePeopleIds fuel data idx collapsed all focus
  = (λ R, peopleIds (people data) ∖ R)
      <$> collect (reach fuel (parentToChildren idx)) collapsed ∅.
Proof.
  unfold getVisiblePeopleIds. rewrite forEachM_hideDescendants.
  by rewrite addAllPeople_peopleIds, union_empty_r_L.
Qed.

Lemma getVisiblePeopleIds_ancestors fuel collapsed focus f :
  truthy focus = Some f →
  getVisiblePeopleIds fuel data idx collapsed ancestors focus
  = (λ R, {[f]} ∪ R) <$> reach fuel (childToParents idx) f.
Proof.
  unfold getVisiblePeopleIds. intros ->. rewrite addAncestors_reach.
  destruct (reach _ _ _); simpl; [|done]. f_equal. set_solver.
Qed.

Lemma getVisiblePeopleIds_descendants fuel collapsed focus f :
  truthy focus = Some f →
  getVisiblePeopleIds fuel data idx collapsed descendants focus
  = (λ R, {[f]} ∪ R) <$> reach fuel (parentToChildren idx) f.
Proof.
  unfold getVisiblePeopleIds. intros ->. rewrite addDescendants_reach.
  destruct (reach _ _ _); simpl; [|done]. f_equal. set_solver.
Qed.

Lemma getVisiblePeopleIds_fallback fuel collapsed viewMode focus :
  viewMode ≠ all → truthy focus = None →
  getVisiblePeopleIds fuel data idx collapsed viewMode focus
  = Some (peopleIds (people data)).
Proof.
  unfold getVisiblePeopleIds. intros Hmode ->.
  destruct viewMode; [congruence| |];
    by rewrite addAllPeople_peopleIds, union_empty_r_L.
Qed.

Lemma getVisiblePeopleIds_mono fuel fuel' collapsed viewMode focus v :
  (fuel ≤ fuel')%nat →
  getVisiblePeopleIds fuel data idx collapsed viewMode focus = Some v →
  getVisiblePeopleIds fuel' data idx collapsed viewMode focus = Some v.
Proof.
  intros Hle. destruct viewMode.
  - rewrite !getVisiblePeopleIds_all.
    destruct (collect (reach fuel _) _ _) as [R|] eqn:HR; simpl; [|done].
    intros [= <-].
    assert (collect (reach fuel' (parentToChildren idx)) collapsed ∅ = Some R)
      as ->; [|done].
    eapply collect_mono; [|exact HR]. intros a r _. by apply reach_mono.
  - destruct (truthy focus) as [f|] eqn:Hf.
    + rewrite !(getVisiblePeopleIds_ancestors _ _ _ f) by done.
      destruct (reach fuel _ _) as [R|] eqn:HR; simpl; [|done].
      intros [= <-]. by rewrite (reach_mono _ _ _ _ _ Hle HR).
    + by rewrite !getVisiblePeopleIds_fallback.
  - destruct (truthy focus) as [f|] eqn:Hf.
    + rewrite !(getVisiblePeopleIds_descendants _ _ _ f) by done.
      destruct (reach fuel _ _) as [R|] eqn:HR; simpl; [|done].
      intros [= <-]. by rewrite (reach_mono _ _ _ _ _ Hle HR).
    + by rewrite !getVisiblePeopleIds_fallback.
Qed.
End visible.

(** ** Termination on acyclic records *)

Lemma reach_wf m (μ : string → nat) :
  (∀ p c, c ∈ getOrEmpty m p → (μ c < μ p)%nat) →
  ∀ fuel p, (μ p < fuel)%nat → is_Some (reach fuel m p).
Proof.
  intros Hμ fuel. induction fuel as [|fuel IH]; intros p Hp; [lia|].
  apply reach_S_is_Some. intros c Hc. apply IH. specialize (Hμ p c Hc). lia.
Qed.

Lemma ranked_parentOf rank bound data p c :
  ranked rank bound data → parentOf data p c →
  (rank c < rank p ≤ bound)%nat.
Proof.
  unfold ranked. rewrite Forall_forall.
  intros H (family & Hfam & Hp & (link & -> & Hlink)%list_elem_of_fmap).
  specialize (H family Hfam). rewrite Forall_forall in H.
  specialize (H link Hlink). rewrite Forall_forall in H. by apply H.
Qed.

Lemma ranked_terminates rank bound data fuel collapsed viewMode focus :
  ranked rank bound data → (bound < fuel)%nat →
  is_Some (visibleIds fuel data collapsed viewMode focus).
Proof.
  intros Hr Hfuel. unfold visibleIds.
  assert (∀ p, is_Some (reach fuel (parentToChildren (buildIndex data)) p)) as Hdown.
  { intros p. apply (reach_wf _ (λ p, rank p `min` bound)%nat); [|lia].
    intros q c Hc%elem_of_parentToChildren.
    pose proof (ranked_parentOf _ _ _ _ _ Hr Hc). lia. }
  assert (∀ p, is_Some (reach fuel (childToParents (buildIndex data)) p)) as Hup.
  { intros p. apply (reach_wf _ (λ p, bound - rank p)%nat); [|lia].
    intros c q Hq%elem_of_childToParents.
    pose proof (ranked_parentOf _ _ _ _ _ Hr Hq). lia. }
  destruct viewMode.
  - rewrite getVisiblePeopleIds_all. apply fmap_is_Some, collect_is_Some. auto.
  - destruct (truthy focus) as [f|] eqn:Hf.
    + rewrite (getVisiblePeopleIds_ancestors _ _ _ _ _ f) by done.
      apply fmap_is_Some, Hup.
    + by rewrite getVisiblePeopleIds_fallback.
  - destruct (truthy focus) as [f|] eqn:Hf.
    + rewrite (getVisiblePeopleIds_descendants _ _ _ _ _ f) by done.
      apply fmap_is_Some, Hdown.
    + by rewrite getVisiblePeopleIds_fallback.
Qed.

(** ** Grouping by generation *)

Section layout.
Implicit Types (m : gmap Z (list Person.t)) (vp : list Person.t).

Lemma lookup_pushPerson m p g :
  pushPerson m p !! g
  = if decide (g = generationOf p) then Some (default [] (m !! g) ++ [p])
    else m !! g.
Proof.
  unfold pushPerson. case_decide as Hg.
  - subst g. rewrite lookup_insert_eq.
    destruct (m !! generationOf p) eqn:Hm; simpl; [by rewrite Hm|].
    by rewrite lookup_insert_eq.
  - rewrite lookup_insert_ne by done.
    destruct (m !! generationOf p); [done|]. by rewrite lookup_insert_ne.
Qed.

Lemma lookup_groupByGeneration vp g :
  groupByGeneration vp !! g
  = match generationRow vp g with [] => None | l => Some l end.
Proof.
  unfold groupByGeneration, generationRow.
  induction vp as [|p vp IH] using rev_ind; [done|].
  rewrite foldl_snoc, lookup_pushPerson, filter_app, IH.
  rewrite filter_cons, filter_nil. case_decide as Hg.
  - subst g. rewrite decide_True by done.
    by destruct (filter _ vp).
  - rewrite decide_False by done. by rewrite app_nil_r.
Qed.

Lemma groupByGeneration_row vp g :
  default [] (groupByGeneration vp !! g) = generationRow vp g.
Proof. rewrite lookup_groupByGeneration. by destruct (generationRow vp g). Qed.

Lemma elem_of_generationsOf_map m g :
  g ∈ generationsOf m ↔ is_Some (m !! g).
Proof.
  unfold generationsOf. rewrite merge_sort_Permutation.
  rewrite list_elem_of_fmap. split.
  - intros ([g' l] & -> & H%elem_of_map_to_list). eauto.
  - intros [l Hl]. exists (g, l). split; [done|]. by apply elem_of_map_to_list.
Qed.

Lemma elem_of_generationsOf vp g :
  g ∈ generationsOf (groupByGeneration vp)
  ↔ ∃ p, p ∈ vp ∧ generationOf p = g.
Proof.
  rewrite elem_of_generationsOf_map, lookup_groupByGeneration.
  unfold generationRow. split.
  - intros [l Hl]. destruct (filter _ vp) as [|p l'] eqn:Hf; [done|].
    assert (p ∈ filter (λ p, generationOf p = g) vp) as Hp by (rewrite Hf; left).
    apply list_elem_of_filter in Hp. naive_solver.
  - intros (p & Hp & Hg).
    assert (p ∈ filter (λ p, generationOf p = g) vp) as Hin
      by by apply list_elem_of_filter.
    destruct (filter _ vp); [inversion Hin|eauto].
Qed.

Lemma generationsOf_sorted m : StronglySorted Z.lt (generationsOf m).
Proof.
  unfold generationsOf.
  pose proof (StronglySorted_merge_sort Z.le (map fst (map_to_list m))) as Hs.
  assert (NoDup (merge_sort Z.le (map fst (map_to_list m)))) as Hnd.
  { rewrite merge_sort_Permutation. apply NoDup_fst_map_to_list. }
  induction Hs as [|g l Hs IH Hall]; [constructor|].
  apply NoDup_cons in Hnd as [Hg Hnd]. constructor; [auto|].
  rewrite Forall_forall in *. intros g' Hg'.
  specialize (Hall g' Hg'). assert (g ≠ g') by (intros ->; done). lia.
Qed.

Context (people : list Person.t) (p2c : gmap string (list string))
        (collapsed : list string).

Lemma lookup_layoutRow r l i :
  layoutRow people p2c collapsed r l !! i
  = placeNode people p2c collapsed r (length l) i <$> l !! i.
Proof. unfold layoutRow. by rewrite list_lookup_imap. Qed.

Lemma length_layoutRow r l :
  length (layoutRow people p2c collapsed r l) = length l.
Proof. unfold layoutRow. by rewrite length_imap. Qed.

Lemma person_layoutRow r l :
  TreeNodeData.person <$> layoutRow people p2c collapsed r l = l.
Proof.
  apply list_eq. intros i. rewrite list_lookup_fmap, lookup_layoutRow.
  by destruct (l !! i).
Qed.

Lemma layoutNodes_rows vp :
  layoutNodes people p2c collapsed vp
  = mjoin (imap (λ r g, layoutRow people p2c collapsed r (generationRow vp g))
                (generationsOf (groupByGeneration vp))).
Proof.
  unfold layoutNodes. f_equal. apply imap_ext. intros r g _. simpl.
  by rewrite groupByGeneration_row.
Qed.

Lemma lookup_layoutNodes vp k n :
  layoutNodes people p2c collapsed vp !! k = Some n
  ↔ ∃ r g i p offset,
      generationsOf (groupByGeneration vp) !! r = Some g
      ∧ generationRow vp g !! i = Some p
      ∧ n = placeNode people p2c collapsed r (length (generationRow vp g)) i p
      ∧ k = (offset + i)%nat
      ∧ offset = sum_list (length <$> take r
                   (imap (λ r g, layoutRow people p2c collapsed r (generationRow vp g))
                         (generationsOf (groupByGeneration vp)))).
Proof.
  rewrite layoutNodes_rows, join_lookup_Some. split.
  - intros (r & l & i & Hr & Hi & ->).
    rewrite list_lookup_imap in Hr.
    destruct (generationsOf _ !! r) as [g|] eqn:Hg; simplify_eq/=.
    rewrite lookup_layoutRow in Hi.
    destruct (generationRow vp g !! i) as [p|] eqn:Hp; simplify_eq/=.
    exists r, g, i, p. eexists. done.
  - intros (r & g & i & p & offset & Hg & Hp & -> & -> & ->).
    exists r, (layoutRow people p2c collapsed r (generationRow vp g)), i.
    rewrite list_lookup_imap, Hg, lookup_layoutRow, Hp. done.
Qed.

Lemma elem_of_layoutNodes vp n :
  n ∈ layoutNodes people p2c collapsed vp
  ↔ ∃ r g i p,
      generationsOf (groupByGeneration vp) !! r = Some g
      ∧ generationRow vp g !! i = Some p
      ∧ n = placeNode people p2c collapsed r (length (generationRow vp g)) i p.
Proof.
  rewrite list_elem_of_lookup. split.
  - intros (k & (r & g & i & p & off & ? & ? & ? & _)%lookup_layoutNodes).
    by exists r, g, i, p.
  - intros (r & g & i & p & Hg & Hp & ->). eexists.
    apply lookup_layoutNodes. exists r, g, i, p. eexists. repeat split; eauto.
Qed.

Lemma person_layoutNodes vp :
  TreeNodeData.person <$> layoutNodes people p2c collapsed vp
  = mjoin (generationRow vp <$> generationsOf (groupByGeneration vp)).
Proof.
  rewrite layoutNodes_rows. generalize (generationsOf (groupByGeneration vp)).
  intros gens.
  assert (∀ f : nat → Z → list TreeNodeData.t,
            (∀ r g, TreeNodeData.person <$> f r g = generationRow vp g) →
            TreeNodeData.person <$> mjoin (imap f gens)
            = mjoin (generationRow vp <$> gens)) as H.
  { induction gens as [|g gens IH]; intros f Hf; [done|].
    rewrite imap_cons. csimpl. rewrite fmap_app, Hf. f_equal.
    apply IH. intros r g'. apply Hf. }
  apply H. intros r g. apply person_layoutRow.
Qed.
End layout.

Lemma startX_exact (count : nat) :
  (- (Z.of_nat count * (NODE_WIDTH + SIBLING_GAP) - SIBLING_GAP)) / 2
  = 10 - 70 * Z.of_nat count.
Proof.
  unfold NODE_WIDTH, SIBLING_GAP.
  replace (- (Z.of_nat count * (120 + 20) - 20)) with ((10 - 70 * Z.of_nat count) * 2)
    by lia.
  by rewrite Z.div_mul.
Qed.

(** ** Positions of placed nodes *)

Lemma personPositionsOf_snoc nodes n :
  personPositionsOf (nodes ++ [n])
  = <[Person.id (TreeNodeData.person n) := (TreeNodeData.x n, TreeNodeData.y n)]>
      (personPositionsOf nodes).
Proof. unfold personPositionsOf. by rewrite foldl_snoc. Qed.

Lemma personPositionsOf_Some nodes i pos :
  personPositionsOf nodes !! i = Some pos →
  ∃ n, n ∈ nodes ∧ Person.id (TreeNodeData.person n) = i
       ∧ pos = (TreeNodeData.x n, TreeNodeData.y n).
Proof.
  induction nodes as [|n nodes IH] using rev_ind; [done|].
  rewrite personPositionsOf_snoc, lookup_insert. case_decide as Hi.
  - intros [= <-]. exists n. rewrite elem_of_app, list_elem_of_singleton. auto.
  - intros (n' & Hn' & H)%IH. exists n'. rewrite elem_of_app. auto.
Qed.

Lemma personPositionsOf_is_Some nodes i :
  is_Some (personPositionsOf nodes !! i)
  ↔ i ∈ (Person.id ∘ TreeNodeData.person) <$> nodes.
Proof.
  induction nodes as [|n nodes IH] using rev_ind.
  - unfold personPositionsOf. simpl. rewrite lookup_empty. split.
    + by intros [? ?]. + inversion 1.
  - rewrite personPositionsOf_snoc, lookup_insert, fmap_app, elem_of_app.
    simpl. rewrite list_elem_of_singleton. case_decide as Hi.
    + split; [auto|eauto].
    + rewrite IH. naive_solver.
Qed.

Lemma positionOf_Some positions i pos :
  positionOf positions i = Some pos →
  ∃ j, truthy i = Some j ∧ positions !! j = Some pos.
Proof. unfold positionOf. destruct (truthy i) as [j|]; [eauto|done]. Qed.

Lemma truthy_Some i j : truthy i = Some j → i = Some j ∧ j ≠ "".
Proof. destruct i as [[|]|]; simpl; naive_solver. Qed.

Lemma elem_of_parentIdsOf family p :
  p ∈ parentIdsOf family
  ↔ truthy (Family.father_id family) = Some p
    ∨ truthy (Family.mother_id family) = Some p.
Proof.
  unfold parentIdsOf. simpl.
  destruct (truthy (Family.father_id _)), (truthy (Family.mother_id _));
    rewrite ?elem_of_cons, ?elem_of_nil; naive_solver.
Qed.

(** Placed nodes are visible people. *)
Lemma layoutNodes_visible people p2c collapsed visible n :
  n ∈ layoutNodes people p2c collapsed (visiblePeopleOf visible people) →
  TreeNodeData.person n ∈ people ∧ Person.id (TreeNodeData.person n) ∈ visible.
Proof.
  intros (r & g & i & p & _ & Hp & ->)%elem_of_layoutNodes. simpl.
  apply list_elem_of_lookup_2 in Hp. unfold generationRow in Hp.
  apply list_elem_of_filter in Hp as [_ Hp]. unfold visiblePeopleOf in Hp.
  apply list_elem_of_filter in Hp. naive_solver.
Qed.

(** ** What each family contributes to the connections *)

Lemma length_coupleConnection positions family :
  (length (coupleConnection positions family) ≤ 1)%nat.
Proof. unfold coupleConnection. repeat case_match; simpl; lia. Qed.

Lemma length_childConnection positions family px py link :
  length (childConnection positions family px py link)
  = match positions !! Child.person_id link with Some _ => 1%nat | None => 0%nat end.
Proof. unfold childConnection. by case_match. Qed.

Lemma length_mjoin_childConnection positions family px py links :
  (length (mjoin (childConnection positions family px py <$> links))
   = length (filter (childPlaced positions) links))%nat.
Proof.
  induction links as [|link links IH]; [done|]. csimpl.
  rewrite length_app, IH, length_childConnection, filter_cons.
  destruct (positions !! Child.person_id link) eqn:Hp.
  - rewrite decide_True by (unfold childPlaced; eauto). done.
  - rewrite decide_False; [done|]. unfold childPlaced. rewrite Hp. by intros [? ?].
Qed.

Lemma length_childConnections positions collapsed children family :
  (length (childConnections positions collapsed children family)
   ≤ length (filter (childPlaced positions) (familyChildrenOf children family)))%nat.
Proof.
  unfold childConnections. repeat case_match; simpl; try lia.
  by rewrite length_mjoin_childConnection.
Qed.

Lemma elem_of_coupleConnection positions family c :
  c ∈ coupleConnection positions family →
  TreeConnectionData.type c = couple
  ∧ ∃ f m fatherPos motherPos,
      truthy (Family.father_id family) = Some f ∧ positions !! f = Some fatherPos
      ∧ truthy (Family.mother_id family) = Some m ∧ positions !! m = Some motherPos
      ∧ TreeConnectionData.x1 c = fatherPos.1 + NODE_WIDTH / 2
      ∧ TreeConnectionData.y1 c = fatherPos.2 + NODE_HEIGHT / 2
      ∧ TreeConnectionData.x2 c = motherPos.1 + NODE_WIDTH / 2
      ∧ TreeConnectionData.y2 c = motherPos.2 + NODE_HEIGHT / 2.
Proof.
  unfold coupleConnection.
  destruct (positionOf positions (Family.father_id family)) as [fp|] eqn:Hf;
    [|by inversion 1].
  destruct (positionOf positions (Family.mother_id family)) as [mp|] eqn:Hm;
    [|by inversion 1].
  intros ->%list_elem_of_singleton. split; [done|].
  apply positionOf_Some in Hf as (f & Hf & Hfp).
  apply positionOf_Some in Hm as (m & Hm & Hmp).
  by exists f, m, fp, mp.
Qed.

Lemma elem_of_childConnections positions collapsed children family c :
  c ∈ childConnections positions collapsed children family →
  TreeConnectionData.type c = parent_child
  ∧ isParentCollapsed collapsed family = false
  ∧ ∃ link childPos p parentPos,
      link ∈ children ∧ Child.family_id link = Family.id family
      ∧ positions !! Child.person_id link = Some childPos
      ∧ TreeConnectionData.x2 c = childPos.1 + NODE_WIDTH / 2
      ∧ TreeConnectionData.y2 c = childPos.2
      ∧ p ∈ parentIdsOf family ∧ positions !! p = Some parentPos
      ∧ TreeConnectionData.y1 c = parentPos.2 + NODE_HEIGHT
      ∧ (TreeConnectionData.x1 c = parentPos.1 + NODE_WIDTH / 2
         ∨ ∃ q otherPos, q ∈ parentIdsOf family ∧ positions !! q = Some otherPos
             ∧ TreeConnectionData.x1 c
               = (parentPos.1 + otherPos.1) / 2 + NODE_WIDTH / 2).
Proof.
  unfold childConnections.
  destruct (positionOf positions (Family.father_id family)) as [fp|] eqn:Hf,
           (positionOf positions (Family.mother_id family)) as [mp|] eqn:Hm;
    simpl; [| | |by inversion 1];
    (destruct (isParentCollapsed collapsed family) eqn:Hc; [by inversion 1|]);
    intros (l & Hc' & (link & -> & Hlink)%list_elem_of_fmap)%list_elem_of_join;
    unfold childConnection in Hc';
    (destruct (positions !! Child.person_id link) as [cp|] eqn:Hcp;
       [|by inversion Hc']);
    apply list_elem_of_singleton in Hc' as ->;
    apply list_elem_of_filter in Hlink as [Hid Hlink];
    (split; [done|]); (split; [done|]); simpl.
  - apply positionOf_Some in Hf as (f & Hf & Hfp).
    apply positionOf_Some in Hm as (m & Hm & Hmp).
    exists link, cp, f, fp. repeat split; try done.
    + apply elem_of_parentIdsOf; auto.
    + right. exists m, mp. split; [apply elem_of_parentIdsOf; auto|done].
  - apply positionOf_Some in Hf as (f & Hf & Hfp).
    exists link, cp, f, fp. repeat split; try done; [|by left].
    apply elem_of_parentIdsOf; auto.
  - apply positionOf_Some in Hm as (m & Hm & Hmp).
    exists link, cp, m, mp. repeat split; try done; [|by left].
    apply elem_of_parentIdsOf; auto.
Qed.

Lemma elem_of_buildConnections data collapsed placed c :
  c ∈ buildConnections data collapsed placed
  ↔ ∃ family, family ∈ families data
      ∧ (c ∈ coupleConnection (personPositionsOf placed) family
         ∨ c ∈ childConnections (personPositionsOf placed) collapsed
                 (children data) family).
Proof.
  unfold buildConnections. rewrite list_elem_of_join.
  setoid_rewrite list_elem_of_fmap. unfold familyConnections. split.
  - intros (l & Hc & family & -> & Hfam). exists family.
    by rewrite elem_of_app in Hc.
  - intros (family & Hfam & Hc). eexists. split; [|by exists family].
    by rewrite elem_of_app.
Qed.

Lemma buildTreeLayout_Some fuel data collapsed viewMode focus out :
  buildTreeLayout fuel data collapsed viewMode focus = Some out →
  ∃ visible,
    visibleIds fuel data collapsed viewMode focus = Some visible
    ∧ nodes out = layoutNodes (people data) (parentToChildren (buildIndex data))
                    collapsed (visiblePeopleOf visible (people data))
    ∧ connections out = buildConnections data collapsed (nodes out).
Proof.
  unfold buildTreeLayout, visibleIds.
  destruct (getVisiblePeopleIds _ _ _ _ _ _) as [visible|]; [|done].
  simpl. intros [= <-]. exists visible. split; [done|].
  unfold layoutOf. by destruct (boundsOf _) as [[minX maxX] maxY].
Qed.

Section counting.
Context {A : Type}.
Implicit Types (P Q R : A → Prop) (l : list A).

Lemma length_filter_disjoint_le P Q R
    `{!∀ x, Decision (P x), !∀ x, Decision (Q x), !∀ x, Decision (R x)} l :
  (∀ x, P x → R x) → (∀ x, Q x → R x) → (∀ x, P x → Q x → False) →
  (length (filter P l) + length (filter Q l) ≤ length (filter R l))%nat.
Proof.
  intros HP HQ HPQ. induction l as [|x l IH]; [done|].
  rewrite !filter_cons.
  destruct (decide (P x)) as [Hp|Hp], (decide (Q x)) as [Hq|Hq],
           (decide (R x)) as [Hr|Hr]; simpl; try lia; naive_solver.
Qed.

Lemma length_filter_mono P Q
    `{!∀ x, Decision (P x), !∀ x, Decision (Q x)} l :
  (∀ x, P x → Q x) → (length (filter P l) ≤ length (filter Q l))%nat.
Proof.
  intros HPQ. induction l as [|x l IH]; [done|]. rewrite !filter_cons.
  destruct (decide (P x)) as [Hp|Hp], (decide (Q x)) as [Hq|Hq]; simpl;
    try lia; naive_solver.
Qed.

Lemma length_filter_mjoin P `{!∀ x, Decision (P x)} (ls : list (list A)) :
  length (filter P (mjoin ls)) = sum_list (length ∘ filter P <$> ls).
Proof.
  induction ls as [|l ls IH]; [done|]. csimpl.
  by rewrite filter_app, length_app, IH.
Qed.

Lemma filter_all P `{!∀ x, Decision (P x)} l :
  Forall P l → filter P l = l.
Proof.
  induction 1 as [|x l Hx _ IH]; [done|].
  by rewrite filter_cons, decide_True, IH.
Qed.

Lemma filter_none P `{!∀ x, Decision (P x)} l :
  Forall (λ x, ¬ P x) l → filter P l = [].
Proof.
  induction 1 as [|x l Hx _ IH]; [done|].
  by rewrite filter_cons, decide_False, IH.
Qed.
End counting.

Section connections.
Context (positions : gmap string (Z * Z)) (collapsed : list string)
        (children : list Child.t).

Lemma Forall_coupleConnection family :
  Forall isCouple (coupleConnection positions family).
Proof.
  apply Forall_forall. intros c Hc.
  by apply elem_of_coupleConnection in Hc as [? _].
Qed.

Lemma Forall_childConnections family :
  Forall isParentChild (childConnections positions collapsed children family).
Proof.
  apply Forall_forall. intros c Hc.
  by apply elem_of_childConnections in Hc as [? _].
Qed.

Lemma filter_isCouple_familyConnections family :
  filter isCouple (familyConnections positions collapsed children family)
  = coupleConnection positions family.
Proof.
  unfold familyConnections. rewrite filter_app.
  rewrite (filter_all _ _ (Forall_coupleConnection family)).
  rewrite filter_none; [by rewrite app_nil_r|].
  eapply Forall_impl; [apply Forall_childConnections|].
  unfold isCouple, isParentChild. congruence.
Qed.

Lemma filter_isParentChild_familyConnections family :
  filter isParentChild (familyConnections positions collapsed children family)
  = childConnections positions collapsed children family.
Proof.
  unfold familyConnections. rewrite filter_app.
  rewrite (filter_all _ _ (Forall_childConnections family)).
  rewrite filter_none; [done|].
  eapply Forall_impl; [apply Forall_coupleConnection|].
  unfold isCouple, isParentChild. congruence.
Qed.

Lemma length_coupleConnection_placed family :
  length (coupleConnection positions family)
  = if decide (bothPlaced positions family) then 1%nat else 0%nat.
Proof.
  case_decide as H; unfold coupleConnection, bothPlaced in *.
  - by destruct H as [[fp ->] [mp ->]].
  - destruct (positionOf positions (Family.father_id family)) as [fp|]; [|done].
    destruct (positionOf positions (Family.mother_id family)) as [mp|]; [|done].
    exfalso; apply H; eauto.
Qed.

Lemma length_couples fams :
  length (filter isCouple
            (mjoin (familyConnections positions collapsed children <$> fams)))
  = length (filter (bothPlaced positions) fams).
Proof.
  induction fams as [|fam fams IH]; [done|]. csimpl.
  rewrite filter_app, length_app, IH, filter_isCouple_familyConnections.
  rewrite length_coupleConnection_placed, filter_cons.
  by case_decide.
Qed.

Lemma length_parentChild fams :
  NoDup (Family.id <$> fams) →
  (length (filter isParentChild
             (mjoin (familyConnections positions collapsed children <$> fams)))
   ≤ length (filter (λ link, childPlaced positions link
                             ∧ Child.family_id link ∈ Family.id <$> fams)
                    children))%nat.
Proof.
  induction fams as [|fam fams IH]; intros Hnd; csimpl; [lia|].
  apply NoDup_cons in Hnd as [Hfam Hnd].
  rewrite filter_app, length_app, filter_isParentChild_familyConnections.
  pose proof (length_childConnections positions collapsed children fam) as H1.
  specialize (IH Hnd).
  unfold familyChildrenOf in H1. rewrite list_filter_filter in H1.
  etrans; [|apply (length_filter_disjoint_le
    (λ link, childPlaced positions link ∧ Child.family_id link = Family.id fam)
    (λ link, childPlaced positions link
             ∧ Child.family_id link ∈ Family.id <$> fams))].
  - lia.
  - intros link [? ->]. split; [done|left].
  - intros link [? ?]. split; [done|by right].
  - intros link [_ Heq] [_ Hin]. by rewrite Heq in Hin.
Qed.
End connections.

Lemma filter_isParentChild_buildConnections data collapsed placed :
  filter isParentChild (buildConnections data collapsed placed)
  = families data ≫= childConnections (personPositionsOf placed) collapsed
                       (children data).
Proof.
  unfold buildConnections. induction (families data) as [|fam fams IH]; [done|].
  csimpl. by rewrite filter_app, IH, filter_isParentChild_familyConnections.
Qed.

Lemma childConnections_nil positions collapsed children family :
  (∀ link, link ∈ familyChildrenOf children family →
           positions !! Child.person_id link = None) →
  childConnections positions collapsed children family = [].
Proof.
  intros Hnone.
  pose proof (length_childConnections positions collapsed children family) as Hlen.
  rewrite filter_none in Hlen.
  - by destruct (childConnections _ _ _ _); [|simpl in Hlen; lia].
  - apply Forall_forall. intros link Hlink [pos Hpos].
    by rewrite Hnone in Hpos.
Qed.

Lemma childConnections_collapsed positions collapsed children family :
  isParentCollapsed collapsed family = true →
  childConnections positions collapsed children family = [].
Proof. unfold childConnections. intros ->. by repeat case_match. Qed.

(** In All mode everything one step below a collapsed identifier is hidden. *)
Lemma visibleIds_all_hides fuel data collapsed focus visible p c :
  visibleIds fuel data collapsed all focus = Some visible →
  p ∈ collapsed → parentOf data p c → c ∉ visible.
Proof.
  unfold visibleIds. rewrite getVisiblePeopleIds_all.
  destruct (collect _ _ _) as [R|] eqn:HR; [|done]. simpl. intros [= <-] Hp Hpc.
  pose proof (proj1 (collect_is_Some _ _ _) (mk_is_Some _ _ HR) p Hp) as [r Hr].
  assert (c ∈ r) as Hc.
  { destruct fuel as [|fuel]; [done|].
    apply (reach_S_elem_of _ _ _ _ _ Hr). exists c. split; [|by left].
    by apply elem_of_parentToChildren. }
  assert (c ∈ R); [|set_solver].
  apply (collect_elem_of _ _ _ _ _ HR). right. by exists p, r.
Qed.

Lemma not_visible_not_placed people p2c collapsed visible i :
  i ∉ visible →
  personPositionsOf (layoutNodes people p2c collapsed (visiblePeopleOf visible people))
    !! i = None.
Proof.
  intros Hi. apply eq_None_not_Some.
  intros (n & -> & Hn)%personPositionsOf_is_Some%list_elem_of_fmap.
  apply layoutNodes_visible in Hn as [_ Hn]. done.
Qed.

(** ** The engine depends on the child links only as a set *)

Lemma layoutOf_fields data idx collapsed visible :
  let placed := layoutNodes (people data) (parentToChildren idx) collapsed
                  (visiblePeopleOf visible (people data)) in
  nodes (layoutOf data idx collapsed visible) = placed
  ∧ connections (layoutOf data idx collapsed visible)
    = buildConnections data collapsed placed
  ∧ width (layoutOf data idx collapsed visible)
    = (boundsOf placed).1.2 - (boundsOf placed).1.1 + 100
  ∧ height (layoutOf data idx collapsed visible) = (boundsOf placed).2 + 50
  ∧ offsetX (layoutOf data idx collapsed visible) = - (boundsOf placed).1.1 + 50.
Proof. unfold layoutOf. simpl. by destruct (boundsOf _) as [[minX maxX] maxY]. Qed.

Section same_links.
Context (data data' : TreeData).
Context (Hpeople : people data' = people data).
Context (Hfamilies : families data' = families data).
Context (Hchildren : ∀ link, link ∈ children data' ↔ link ∈ children data).

Lemma linked_same_links family c :
  linked (children data') family c ↔ linked (children data) family c.
Proof. rewrite !linked_exists. by setoid_rewrite Hchildren. Qed.

Lemma parentOf_same_links p c : parentOf data' p c ↔ parentOf data p c.
Proof.
  unfold parentOf. rewrite Hfamilies. by setoid_rewrite linked_same_links.
Qed.

Lemma childToParents_same_links :
  childToParents (buildIndex data') = childToParents (buildIndex data).
Proof.
  unfold buildIndex. rewrite Hfamilies. generalize (families data). intros fams.
  assert (∀ idx idx', childToParents idx' = childToParents idx →
            childToParents (foldl (indexFamily (children data')) idx' fams)
            = childToParents (foldl (indexFamily (children data)) idx fams))
    as H; [|by apply H].
  induction fams as [|fam fams IH]; intros idx idx' Hidx; [done|].
  simpl. apply IH. apply map_eq. intros c.
  rewrite !childToParents_indexFamily, Hidx.
  destruct (decide (linked (children data') fam c)) as [H'|H'],
           (decide (linked (children data) fam c)) as [H|H];
    try done; exfalso; rewrite linked_same_links in H'; done.
Qed.

Lemma parentToChildren_same_links q x :
  x ∈ getOrEmpty (parentToChildren (buildIndex data')) q
  ↔ x ∈ getOrEmpty (parentToChildren (buildIndex data)) q.
Proof. rewrite !elem_of_parentToChildren. apply parentOf_same_links. Qed.

Lemma visibleIds_same_links fuel collapsed viewMode focus :
  visibleIds fuel data' collapsed viewMode focus
  = visibleIds fuel data collapsed viewMode focus.
Proof.
  unfold visibleIds. destruct viewMode.
  - rewrite !getVisiblePeopleIds_all, Hpeople. f_equal.
    apply collect_set_ext; [done|]. intros c.
    apply reach_ext, parentToChildren_same_links.
  - destruct (truthy focus) as [f|] eqn:Hf.
    + rewrite !(getVisiblePeopleIds_ancestors _ _ _ _ _ f) by done.
      by rewrite childToParents_same_links.
    + by rewrite !getVisiblePeopleIds_fallback, Hpeople.
  - destruct (truthy focus) as [f|] eqn:Hf.
    + rewrite !(getVisiblePeopleIds_descendants _ _ _ _ _ f) by done.
      f_equal. apply reach_ext, parentToChildren_same_links.
    + by rewrite !getVisiblePeopleIds_fallback, Hpeople.
Qed.

Lemma hasChildrenOf_same_links people i :
  hasChildrenOf people (parentToChildren (buildIndex data')) i
  = hasChildrenOf people (parentToChildren (buildIndex data)) i.
Proof.
  unfold hasChildrenOf. apply eq_true_iff_eq. rewrite !existsb_exists.
  setoid_rewrite <- list_elem_of_In.
  by setoid_rewrite parentToChildren_same_links.
Qed.

Lemma layoutNodes_same_links collapsed vp :
  layoutNodes (people data') (parentToChildren (buildIndex data')) collapsed vp
  = layoutNodes (people data) (parentToChildren (buildIndex data)) collapsed vp.
Proof.
  rewrite Hpeople. unfold layoutNodes. f_equal. apply imap_ext. intros r g _.
  unfold layoutRow. apply imap_ext. intros i p _. simpl.
  by rewrite hasChildrenOf_same_links.
Qed.

Lemma familyChildrenOf_same_links family link :
  link ∈ familyChildrenOf (children data') family
  ↔ link ∈ familyChildrenOf (children data) family.
Proof. unfold familyChildrenOf. by rewrite !list_elem_of_filter, Hchildren. Qed.

Lemma childConnections_same_links positions collapsed family c :
  c ∈ childConnections positions collapsed (children data') family
  ↔ c ∈ childConnections positions collapsed (children data) family.
Proof.
  unfold childConnections. repeat case_match; try done.
  rewrite !list_elem_of_join. setoid_rewrite list_elem_of_fmap.
  by setoid_rewrite familyChildrenOf_same_links.
Qed.

Lemma buildConnections_same_links collapsed placed c :
  c ∈ buildConnections data' collapsed placed
  ↔ c ∈ buildConnections data collapsed placed.
Proof.
  rewrite !elem_of_buildConnections, Hfamilies.
  by setoid_rewrite childConnections_same_links.
Qed.

Lemma couples_same_links collapsed placed :
  filter isCouple (buildConnections data' collapsed placed)
  = filter isCouple (buildConnections data collapsed placed).
Proof.
  unfold buildConnections. rewrite Hfamilies. generalize (families data).
  intros fams. induction fams as [|fam fams IH]; [done|]. csimpl.
  by rewrite !filter_app, IH, !filter_isCouple_familyConnections.
Qed.

Lemma buildTreeLayout_same_links fuel collapsed viewMode focus :
  sameDrawing (buildTreeLayout fuel data' collapsed viewMode focus)
              (buildTreeLayout fuel data collapsed viewMode focus).
Proof.
  unfold buildTreeLayout.
  pose proof (visibleIds_same_links fuel collapsed viewMode focus) as Hv.
  unfold visibleIds in Hv. rewrite Hv.
  destruct (getVisiblePeopleIds fuel data _ _ _ _) as [visible|]; [|done]. simpl.
  destruct (layoutOf_fields data' (buildIndex data') collapsed visible)
    as (-> & -> & -> & -> & ->).
  destruct (layoutOf_fields data (buildIndex data) collapsed visible)
    as (-> & -> & -> & -> & ->).
  rewrite Hpeople, <- (layoutNodes_same_links collapsed), Hpeople.
  repeat split; try done.
  - by intros ?%buildConnections_same_links.
  - by intros ?%buildConnections_same_links.
  - apply couples_same_links.
Qed.
End same_links.

(** ** Further facts about [reach] *)

Lemma reach_self_loop m p fuel : p ∈ getOrEmpty m p → reach fuel m p = None.
Proof.
  intros Hp. induction fuel as [|fuel IH]; [done|].
  apply eq_None_not_Some. intros H.
  pose proof (proj1 (reach_S_is_Some m fuel p) H p Hp) as [r Hr]. congruence.
Qed.

Lemma reach_elem_of_edge m fuel p R x :
  reach fuel m p = Some R → x ∈ R → ∃ q, x ∈ getOrEmpty m q.
Proof.
  revert p R. induction fuel as [|fuel IH]; intros p R HR Hx; [done|].
  apply (reach_S_elem_of _ _ _ _ _ HR) in Hx as (c & Hc & [->|(r & Hr & Hx)]); eauto.
Qed.

Lemma tc_iff {A} (R1 R2 : relation A) x y :
  (∀ a b, R1 a b ↔ R2 a b) → tc R1 x y ↔ tc R2 x y.
Proof.
  intros H. split; induction 1 as [a b Hab|a b c Hab _ IH].
  - apply tc_once. by apply H.
  - eapply tc_l; [by apply H|done].
  - apply tc_once. by apply H.
  - eapply tc_l; [by apply H|done].
Qed.

Lemma reach_tc m fuel p R x :
  reach fuel m p = Some R → x ∈ R ↔ tc (edge m) p x.
Proof.
  intros HR. split.
  - revert p R HR x. induction fuel as [|fuel IH]; intros p R HR x Hx; [done|].
    apply (reach_S_elem_of _ _ _ _ _ HR) in Hx as (c & Hc & [->|(r & Hr & Hx)]).
    + by apply tc_once.
    + eapply tc_l; [exact Hc|]. by eapply IH.
  - intros Htc. revert fuel R HR.
    induction Htc as [p x Hpx|p c x Hpc _ IH]; intros fuel R HR;
      (destruct fuel as [|fuel]; [done|]);
      apply (reach_S_elem_of _ _ _ _ _ HR).
    + exists x. split; [done|by left].
    + exists c. split; [done|]. right.
      destruct (proj1 (reach_S_is_Some m fuel p) (mk_is_Some _ _ HR) c Hpc) as [r Hr].
      exists r. split; [done|]. by eapply IH.
Qed.

Lemma tc_step_iff {A} (R : relation A) x y :
  tc R x y ↔ ∃ z, R x z ∧ (y = z ∨ tc R z y).
Proof.
  split.
  - destruct 1 as [x y Hxy|x z y Hxz Hzy]; eauto.
  - intros (z & Hxz & [->|Hzy]); [by apply tc_once|by eapply tc_l].
Qed.

(** ** The child-to-parents map in terms of the records *)

Lemma childToParents_lastFamilyOf data c :
  childToParents (buildIndex data) !! c = parentIdsOf <$> lastFamilyOf data c.
Proof.
  unfold buildIndex, lastFamilyOf. generalize (families data). intros fams.
  induction fams as [|fam fams IH] using rev_ind; [done|].
  rewrite foldl_snoc, childToParents_indexFamily, filter_app, filter_cons, filter_nil.
  case_decide.
  - by rewrite last_snoc.
  - by rewrite app_nil_r.
Qed.

Lemma lastParentOf_edge data c p :
  edge (childToParents (buildIndex data)) c p ↔ lastParentOf data p c.
Proof.
  unfold edge, getOrEmpty, lastParentOf. rewrite childToParents_lastFamilyOf.
  destruct (lastFamilyOf data c) as [family|]; simpl.
  - split; [eauto|]. by intros (? & [= <-] & ?).
  - split; [by intros ?%elem_of_nil|]. by intros (? & ? & ?).
Qed.

Lemma lastParentOf_parentOf data p c : lastParentOf data p c → parentOf data p c.
Proof. intros H%lastParentOf_edge. by apply elem_of_childToParents. Qed.

Lemma placeNode_x_even people p2c collapsed r count i p :
  TreeNodeData.x (placeNode people p2c collapsed r count i p)
  = 2 * (5 - 35 * Z.of_nat count + 70 * Z.of_nat i).
Proof. simpl. rewrite startX_exact. unfold NODE_WIDTH, SIBLING_GAP. lia. Qed.

Lemma layoutNodes_x_even people p2c collapsed vp n :
  n ∈ layoutNodes people p2c collapsed vp → ∃ k, TreeNodeData.x n = 2 * k.
Proof.
  intros (r & g & i & p & _ & _ & ->)%elem_of_layoutNodes.
  eexists. apply placeNode_x_even.
Qed.

(** The midpoint of two placed parents (line 392) is an exact half. *)
Lemma midpoint_exact people p2c collapsed vp f m fatherPos motherPos :
  let positions := personPositionsOf (layoutNodes people p2c collapsed vp) in
  positions !! f = Some fatherPos → positions !! m = Some motherPos →
  2 * ((fatherPos.1 + motherPos.1) / 2) = fatherPos.1 + motherPos.1.
Proof.
  intros positions (nf & [kf Hf]%layoutNodes_x_even & _ & ->)%personPositionsOf_Some
                   (nm & [km Hm]%layoutNodes_x_even & _ & ->)%personPositionsOf_Some.
  simpl. rewrite Hf, Hm.
  replace (2 * kf + 2 * km) with ((kf + km) * 2) by lia.
  rewrite Z.div_mul by done. lia.
Qed.

(** * The specification's scenarios, evaluated (spec section 8) *)

(** Scenario 1: three generations in a line, nothing collapsed: three nodes,
    two parent-child connections and no couple connection. *)
Example scenario_linear :
  (λ out, (Person.id ∘ TreeNodeData.person <$> nodes out,
           TreeConnectionData.id <$> connections out))
    <$> buildTreeLayout 3 linearData [] all None
  = Some (["A"; "B"; "C"], ["child-F-B"; "child-G-C"]).
Proof. by vm_compute. Qed.

(** Scenario 2: the same records with A collapsed: only A is drawn. *)
Example scenario_linear_collapsed :
  (λ out, (Person.id ∘ TreeNodeData.person <$> nodes out,
           TreeConnectionData.id <$> connections out))
    <$> buildTreeLayout 3 linearData ["A"] all None
  = Some (["A"], []).
Proof. by vm_compute. Qed.

(** Scenario 3: ancestors of C are A, B and C. *)
Example scenario_linear_ancestors :
  visibleIds 3 linearData [] ancestors (Some "C") = Some {["A"; "B"; "C"]}.
Proof. by vm_compute. Qed.

(** * The claims *)

(** ** C1: termination of the visibility computation *)

(** C1, counterexample.  The claim says that the visibility computation
    tracks visited identifiers and terminates on every input, cyclic ones
    included.  The code keeps no visited set: on the record set where A is a
    child of the family A is the father of, none of the three closures
    returns, whatever the depth of stack allowed: neither descendant removal
    with A collapsed, nor the ancestors of A, nor the descendants of A. *)
Lemma cyclic_records_never_return :
  ¬ ∃ fuel,
      is_Some (visibleIds fuel cyclicData ["A"] all None)
      ∨ is_Some (visibleIds fuel cyclicData [] ancestors (Some "A"))
      ∨ is_Some (visibleIds fuel cyclicData [] descendants (Some "A")).
Proof.
  intros (fuel & H). unfold visibleIds in H.
  rewrite getVisiblePeopleIds_all in H.
  rewrite (getVisiblePeopleIds_ancestors _ _ _ _ _ "A") in H by done.
  rewrite (getVisiblePeopleIds_descendants _ _ _ _ _ "A") in H by done.
  rewrite !fmap_is_Some in H.
  assert (reach fuel (parentToChildren (buildIndex cyclicData)) "A" = None) as Hd.
  { apply reach_self_loop. vm_compute. left. }
  assert (reach fuel (childToParents (buildIndex cyclicData)) "A" = None) as Hu.
  { apply reach_self_loop. vm_compute. left. }
  rewrite Hu, Hd, collect_is_Some in H.
  destruct H as [H|[[? H]|[? H]]]; [|done..].
  destruct (H "A") as [? ?]; [left|congruence].
Qed.

(** C1, as amended.  On every record set whose recorded parent/child pairs
    are acyclic (some ranking puts every parent strictly above its child,
    below [bound]), the visibility computation terminates in every view
    mode, for every collapse set and focus: any stack deeper than [bound]
    yields one and the same visible set. *)
Theorem acyclic_visibility_terminates rank bound data collapsed viewMode focus :
  ranked rank bound data →
  ∃ visible, ∀ fuel, (bound < fuel)%nat →
    visibleIds fuel data collapsed viewMode focus = Some visible.
Proof.
  intros Hr.
  destruct (ranked_terminates rank bound data (S bound) collapsed viewMode focus Hr)
    as [visible Hv]; [lia|].
  exists visible. intros fuel Hfuel.
  eapply getVisiblePeopleIds_mono; [|exact Hv]. lia.
Qed.

(** C1, witness: the linear records A > B > C with A collapsed. *)
Lemma acyclic_visibility_terminates_witness :
  ∃ visible, ∀ fuel, (2 < fuel)%nat →
    visibleIds fuel linearData ["A"] all None = Some visible.
Proof.
  apply (acyclic_visibility_terminates linearRank 2 linearData).
  apply (bool_decide_unpack _). vm_compute. exact I.
Defined.

(** ** C2: fallback when the focus is missing *)

(** C2, counterexample.  The claim says that an absent focus, or one that
    matches no person, makes the focused modes return what All mode returns.
    A focus "Z" that matches no person is not a fallback case: the ancestors
    closure runs from it and returns {Z}, where All mode returns everybody.
    And with an absent focus the fallback returns everybody without applying
    the collapse set, where All mode with A collapsed returns {A}. *)
Lemma unknown_focus_is_not_all :
  visibleIds 3 linearData [] ancestors (Some "Z") = Some {["Z"]}
  ∧ visibleIds 3 linearData [] all (Some "Z") = Some {["A"; "B"; "C"]}
  ∧ visibleIds 3 linearData [] ancestors (Some "Z")
    ≠ visibleIds 3 linearData [] all (Some "Z")
  ∧ visibleIds 3 linearData ["A"] descendants None = Some {["A"; "B"; "C"]}
  ∧ visibleIds 3 linearData ["A"] all None = Some {["A"]}
  ∧ visibleIds 3 linearData ["A"] descendants None
    ≠ visibleIds 3 linearData ["A"] all None.
Proof. repeat split; by vm_compute. Qed.

(** C2, as amended.  In a focused mode with an absent focus ([null] or the
    empty string) the resolver returns the identifiers of all people,
    whatever the collapse set: the visible set of All mode with nothing
    collapsed. *)
Theorem absent_focus_falls_back fuel data collapsed viewMode focus :
  viewMode ≠ all → truthy focus = None →
  visibleIds fuel data collapsed viewMode focus = Some (peopleIds (people data))
  ∧ visibleIds fuel data [] all focus = Some (peopleIds (people data)).
Proof.
  intros Hmode Hfocus. unfold visibleIds. split.
  - by apply getVisiblePeopleIds_fallback.
  - rewrite getVisiblePeopleIds_all. unfold collect. simpl.
    by rewrite difference_empty_L.
Qed.

(** C2, witness: ancestors mode without a focus, A collapsed. *)
Lemma absent_focus_falls_back_witness :
  visibleIds 0 linearData ["A"] ancestors None = Some (peopleIds (people linearData))
  ∧ visibleIds 0 linearData [] all None = Some (peopleIds (people linearData)).
Proof. apply absent_focus_falls_back; [discriminate|reflexivity]. Defined.

(** ** C3: a collapsed parent suppresses the child anchor *)

(** C3, counterexample.  The claim says that either parent of a union being
    collapsed suppresses the union's parent-child connections.  The code
    tests one identifier only, [father_id || mother_id]: with the couple
    F, M, their child C, the mother M collapsed and the ancestors of C in
    view, the connection to C is still emitted. *)
Lemma collapsed_mother_keeps_connector :
  Family.mother_id (Family.mk "U" (Some "F") (Some "M")) = Some "M"
  ∧ "M" ∈ ["M"]
  ∧ connections <$> buildTreeLayout 3 coupleData ["M"] ancestors (Some "C")
    = Some [ TreeConnectionData.mk "couple-U" (-70) 60 70 60 couple true;
             TreeConnectionData.mk "child-U-C" 0 100 0 160 parent_child true ].
Proof. split; [done|]. split; [left|]. by vm_compute. Qed.

(** C3, as amended.  A union contributes no parent-child connection when
    the identifier the code tests is collapsed: the father's when the union
    has one, the mother's otherwise.  In All mode the same holds for either
    recognized parent, because the children of a collapsed parent are then
    not placed. *)
Theorem collapsed_parent_suppresses fuel data collapsed viewMode focus out family p :
  buildTreeLayout fuel data collapsed viewMode focus = Some out →
  family ∈ families data →
  p ∈ collapsed →
  truthy (orElse (Family.father_id family) (Family.mother_id family)) = Some p
  ∨ (viewMode = all ∧ p ∈ parentIdsOf family) →
  childConnections (personPositionsOf (nodes out)) collapsed (children data) family
  = []
  ∧ familyConnections (personPositionsOf (nodes out)) collapsed (children data) family
    = coupleConnection (personPositionsOf (nodes out)) family.
Proof.
  intros Hout Hfam Hp Hcase.
  assert (childConnections (personPositionsOf (nodes out)) collapsed
            (children data) family = []) as Hnil.
  { destruct Hcase as [Hprimary|[-> Hparent]].
    - apply childConnections_collapsed. unfold isParentCollapsed.
      rewrite Hprimary. by apply bool_decide_eq_true.
    - apply buildTreeLayout_Some in Hout as (visible & Hv & -> & _).
      apply childConnections_nil. intros link Hlink.
      apply not_visible_not_placed.
      apply (visibleIds_all_hides _ _ _ _ _ p _ Hv Hp).
      exists family. split; [done|]. split; [done|].
      unfold linked. apply list_elem_of_fmap. by exists link. }
  split; [done|]. unfold familyConnections. by rewrite Hnil, app_nil_r.
Qed.

(** C3, witness: the father F collapsed, the ancestors of C in view. *)
Lemma collapsed_parent_suppresses_witness :
  ∃ out,
    buildTreeLayout 3 coupleData ["F"] ancestors (Some "C") = Some out
    ∧ childConnections (personPositionsOf (nodes out)) ["F"] (children coupleData)
        (Family.mk "U" (Some "F") (Some "M")) = []
    ∧ familyConnections (personPositionsOf (nodes out)) ["F"] (children coupleData)
        (Family.mk "U" (Some "F") (Some "M"))
      = coupleConnection (personPositionsOf (nodes out))
          (Family.mk "U" (Some "F") (Some "M")).
Proof.
  destruct (buildTreeLayout 3 coupleData ["F"] ancestors (Some "C")) as [out|] eqn:Hout;
    [|by vm_compute in Hout].
  exists out. split; [done|].
  apply (collapsed_parent_suppresses 3 coupleData ["F"] ancestors (Some "C") out
           (Family.mk "U" (Some "F") (Some "M")) "F" Hout).
  - left.
  - left.
  - by left.
Defined.

(** ** C4: duplicate child links *)

(** C4, counterexample.  The claim says that a duplicate child link is
    deduplicated, so that the output equals the output without the
    duplicate.  Nothing deduplicates: with the link (F, B) recorded twice the
    index lists B twice under A and the connection to B is emitted twice, so
    the two outputs differ. *)
Lemma duplicate_link_not_deduplicated :
  parentToChildren (buildIndex duplicateLinkData) !! "A" = Some ["B"; "B"]
  ∧ parentToChildren (buildIndex singleLinkData) !! "A" = Some ["B"]
  ∧ connections <$> buildTreeLayout 3 duplicateLinkData [] all None
    = Some [ TreeConnectionData.mk "child-F-B" 0 100 0 160 parent_child true;
             TreeConnectionData.mk "child-F-B" 0 100 0 160 parent_child true ]
  ∧ connections <$> buildTreeLayout 3 singleLinkData [] all None
    = Some [ TreeConnectionData.mk "child-F-B" 0 100 0 160 parent_child true ]
  ∧ buildTreeLayout 3 duplicateLinkData [] all None
    ≠ buildTreeLayout 3 singleLinkData [] all None.
Proof. repeat split; by vm_compute. Qed.

(** C4, as amended.  A duplicate child link is tolerated, and not removed:
    against the input with the duplicate removed, the index records the same
    parents for every child and the same children, as a set, for every
    parent; the engine returns on the one input exactly when it returns on
    the other, and then with the same placed nodes, the same bounds, the
    same couple connections and the same set of connections
    ([sameDrawing]). *)
Theorem duplicate_link_same_drawing fuel data link l1 l2 l3 collapsed viewMode focus :
  children data = l1 ++ link :: l2 ++ link :: l3 →
  let deduped :=
    mkTreeData (people data) (families data) (l1 ++ link :: l2 ++ l3) in
  childToParents (buildIndex data) = childToParents (buildIndex deduped)
  ∧ (∀ p c, c ∈ getOrEmpty (parentToChildren (buildIndex data)) p
            ↔ c ∈ getOrEmpty (parentToChildren (buildIndex deduped)) p)
  ∧ sameDrawing
      (buildTreeLayout fuel data collapsed viewMode focus)
      (buildTreeLayout fuel deduped collapsed viewMode focus).
Proof.
  intros Hch deduped.
  assert (∀ l, l ∈ children data ↔ l ∈ children deduped) as Hsame.
  { intros l. rewrite Hch. simpl.
    rewrite !elem_of_app, !elem_of_cons, !elem_of_app, !elem_of_cons.
    naive_solver. }
  split; [|split].
  - by apply childToParents_same_links.
  - intros p c. by apply parentToChildren_same_links.
  - by apply buildTreeLayout_same_links.
Qed.

(** C4, witness: the link (F, B) recorded twice. *)
Lemma duplicate_link_same_drawing_witness :
  sameDrawing
    (buildTreeLayout 3 duplicateLinkData [] all None)
    (buildTreeLayout 3
       (mkTreeData (people duplicateLinkData) (families duplicateLinkData)
          ([] ++ Child.mk "F" "B" :: [] ++ []))
       [] all None).
Proof.
  exact (proj2 (proj2
    (duplicate_link_same_drawing 3 duplicateLinkData (Child.mk "F" "B")
       [] [] [] [] all None eq_refl))).
Defined.

(** ** C5: the visible set and the people *)

(** C5.  Whenever the resolver returns, the visible people, as they leave
    the filter of line 330, are people of the record set: their identifiers
    are a subset of the people's identifiers, namely those the resolver's set
    holds, and every placed node is a person's.  The resolver's own set is
    within the people's identifiers in All mode and in the fallback of the
    focused modes.  In All mode with nothing collapsed the resolver returns,
    whatever the stack depth, exactly the identifiers of all people, and the
    visible people are all the people. *)
Theorem visible_subset_of_people fuel data collapsed viewMode focus visible :
  visibleIds fuel data collapsed viewMode focus = Some visible →
  peopleIds (visiblePeopleOf visible (people data)) ⊆ peopleIds (people data)
  ∧ (∀ x, x ∈ peopleIds (visiblePeopleOf visible (people data))
          ↔ x ∈ visible ∧ x ∈ peopleIds (people data))
  ∧ (∀ out n,
       buildTreeLayout fuel data collapsed viewMode focus = Some out →
       n ∈ nodes out →
       TreeNodeData.person n ∈ people data
       ∧ Person.id (TreeNodeData.person n) ∈ peopleIds (people data))
  ∧ (viewMode = all ∨ truthy focus = None → visible ⊆ peopleIds (people data))
  ∧ visibleIds fuel data [] all focus = Some (peopleIds (people data))
  ∧ visiblePeopleOf (peopleIds (people data)) (people data) = people data.
Proof.
  intros Hv.
  assert (∀ x, x ∈ peopleIds (visiblePeopleOf visible (people data))
               ↔ x ∈ visible ∧ x ∈ peopleIds (people data)) as Hfilter.
  { intros x. rewrite !elem_of_peopleIds. unfold visiblePeopleOf. split.
    - intros (p & [Hp Hin]%list_elem_of_filter & <-). eauto.
    - intros [Hx (p & Hin & <-)]. exists p. split; [|done].
      by apply list_elem_of_filter. }
  split; [intros x Hx; by apply Hfilter in Hx as [_ ?]|].
  split; [done|]. split; [|split; [|split]].
  - intros out n (visible' & Hv' & Hnodes & _)%buildTreeLayout_Some Hn.
    rewrite Hnodes in Hn. apply layoutNodes_visible in Hn as [Hn _].
    split; [done|]. apply elem_of_peopleIds. eauto.
  - intros Hcase. unfold visibleIds in Hv. destruct viewMode.
    + rewrite getVisiblePeopleIds_all in Hv.
      destruct (collect _ _ _); simplify_eq/=. set_solver.
    + destruct Hcase as [?|Hf]; [done|].
      rewrite getVisiblePeopleIds_fallback in Hv by done. by simplify_eq.
    + destruct Hcase as [?|Hf]; [done|].
      rewrite getVisiblePeopleIds_fallback in Hv by done. by simplify_eq.
  - unfold visibleIds. rewrite getVisiblePeopleIds_all. unfold collect. simpl.
    by rewrite difference_empty_L.
  - unfold visiblePeopleOf. apply filter_all, Forall_forall.
    intros p Hp. apply elem_of_peopleIds. eauto.
Qed.

(** C5, witness: the ancestors of B on records whose family names a father X
    who is not among the people. *)
Lemma visible_subset_of_people_witness :
  peopleIds (visiblePeopleOf {["B"; "X"]} (people danglingParentData))
    ⊆ peopleIds (people danglingParentData)
  ∧ (∀ x, x ∈ peopleIds (visiblePeopleOf {["B"; "X"]} (people danglingParentData))
          ↔ x ∈ ({["B"; "X"]} : gset string)
            ∧ x ∈ peopleIds (people danglingParentData))
  ∧ (∀ out n,
       buildTreeLayout 3 danglingParentData [] ancestors (Some "B") = Some out →
       n ∈ nodes out →
       TreeNodeData.person n ∈ people danglingParentData
       ∧ Person.id (TreeNodeData.person n) ∈ peopleIds (people danglingParentData))
  ∧ (ancestors = all ∨ truthy (Some "B") = None →
     ({["B"; "X"]} : gset string) ⊆ peopleIds (people danglingParentData))
  ∧ visibleIds 3 danglingParentData [] all (Some "B")
    = Some (peopleIds (people danglingParentData))
  ∧ visiblePeopleOf (peopleIds (people danglingParentData))
      (people danglingParentData)
    = people danglingParentData.
Proof.
  apply (visible_subset_of_people 3 danglingParentData [] ancestors (Some "B")
           {["B"; "X"]}).
  by vm_compute.
Defined.

(** The set the closures build, before the filter, may name identifiers that
    are no person's: B's recorded father X, or an unknown focus Z.  The
    filter drops them. *)
Example closure_may_name_non_people :
  visibleIds 3 danglingParentData [] ancestors (Some "B") = Some {["B"; "X"]}
  ∧ visiblePeopleOf {["B"; "X"]} (people danglingParentData)
    = [Person.mk "B" (Some 2)]
  ∧ visibleIds 3 linearData [] descendants (Some "Z") = Some {["Z"]}
  ∧ visiblePeopleOf {["Z"]} (people linearData) = [].
Proof. repeat split; by vm_compute. Qed.

(** ** C6: placement *)

(** C6.  For every list of visible people: the generation keys come out
    strictly ascending and are the generations present; the placed nodes
    are the rows in that order, each row holding its generation's people in
    record order; the node of the [i]-th person of the row with index
    [rowIndex] has [y = rowIndex * LEVEL_HEIGHT + 20] and
    [x = -totalWidth / 2 + i * (NODE_WIDTH + SIBLING_GAP)] with
    [totalWidth = count * (NODE_WIDTH + SIBLING_GAP) - SIBLING_GAP], the
    halving being exact; and two nodes at different positions of the output
    that share a row are at least [NODE_WIDTH + SIBLING_GAP] apart, so they
    do not overlap. *)
Theorem layout_placement people p2c collapsed (visiblePeople : list Person.t) :
  let generations := generationsOf (groupByGeneration visiblePeople) in
  let placed := layoutNodes people p2c collapsed visiblePeople in
  StronglySorted Z.lt generations
  ∧ (∀ gen, gen ∈ generations ↔ ∃ p, p ∈ visiblePeople ∧ generationOf p = gen)
  ∧ TreeNodeData.person <$> placed
    = mjoin (generationRow visiblePeople <$> generations)
  ∧ (∀ n, n ∈ placed →
       ∃ (rowIndex : nat) (gen : Z) (i : nat),
         generations !! rowIndex = Some gen
         ∧ generationRow visiblePeople gen !! i = Some (TreeNodeData.person n)
         ∧ TreeNodeData.y n = Z.of_nat rowIndex * LEVEL_HEIGHT + 20
         ∧ let count := length (generationRow visiblePeople gen) in
           let totalWidth := Z.of_nat count * (NODE_WIDTH + SIBLING_GAP) - SIBLING_GAP in
           2 * ((- totalWidth) / 2) = - totalWidth
           ∧ TreeNodeData.x n
             = (- totalWidth) / 2 + Z.of_nat i * (NODE_WIDTH + SIBLING_GAP))
  ∧ (∀ (k1 k2 : nat) n1 n2,
       k1 ≠ k2 → placed !! k1 = Some n1 → placed !! k2 = Some n2 →
       TreeNodeData.y n1 = TreeNodeData.y n2 →
       TreeNodeData.x n1 + NODE_WIDTH + SIBLING_GAP ≤ TreeNodeData.x n2
       ∨ TreeNodeData.x n2 + NODE_WIDTH + SIBLING_GAP ≤ TreeNodeData.x n1).
Proof.
  intros generations placed. repeat split.
  - apply generationsOf_sorted.
  - by intros ?%elem_of_generationsOf.
  - by intros ?%elem_of_generationsOf.
  - apply person_layoutNodes.
  - intros n (r & g & i & p & Hg & Hp & ->)%elem_of_layoutNodes.
    exists r, g, i. repeat split; try done.
    rewrite startX_exact. unfold NODE_WIDTH, SIBLING_GAP. lia.
  - intros k1 k2 n1 n2 Hk
      (r1 & g1 & i1 & p1 & o1 & Hg1 & Hp1 & -> & -> & Ho1)%lookup_layoutNodes
      (r2 & g2 & i2 & p2 & o2 & Hg2 & Hp2 & -> & -> & Ho2)%lookup_layoutNodes Hy.
    simpl in Hy. unfold LEVEL_HEIGHT in Hy.
    assert (r1 = r2) as -> by lia. simplify_eq.
    assert (i1 ≠ i2) by lia.
    rewrite !placeNode_x_even. unfold NODE_WIDTH, SIBLING_GAP. lia.
Qed.

(** C6, witness: the rows of the linear records. *)
Lemma layout_placement_witness :
  StronglySorted Z.lt (generationsOf (groupByGeneration (people linearData))).
Proof.
  exact (proj1 (layout_placement (people linearData) ∅ [] (people linearData))).
Defined.

(** ** C7: visibility is antitone in the collapse set *)

(** C7.  In All mode, when the run for the larger collapse set returns a
    visible set, the run for the smaller one returns too, and its visible
    set contains the other. *)
Theorem collapse_antitone fuel data (collapsed1 collapsed2 : list string) focus
    visible2 :
  collapsed1 ⊆ collapsed2 →
  visibleIds fuel data collapsed2 all focus = Some visible2 →
  ∃ visible1,
    visibleIds fuel data collapsed1 all focus = Some visible1
    ∧ visible2 ⊆ visible1.
Proof.
  unfold visibleIds. rewrite !getVisiblePeopleIds_all. intros Hsub.
  destruct (collect _ collapsed2 ∅) as [R2|] eqn:HR2; [|done]. simpl.
  intros [= <-].
  destruct (proj2 (collect_is_Some
                     (reach fuel (parentToChildren (buildIndex data)))
                     collapsed1 ∅)) as [R1 HR1].
  { intros c Hc. apply (proj1 (collect_is_Some _ _ _) (mk_is_Some _ _ HR2)).
    by apply Hsub. }
  rewrite HR1. simpl. eexists; split; [done|].
  assert (R1 ⊆ R2); [|set_solver].
  intros x Hx. apply (collect_elem_of _ _ _ _ _ HR1) in Hx as [Hx|(c & r & Hc & Hr & Hx)];
    [set_solver|].
  apply (collect_elem_of _ _ _ _ _ HR2). right. exists c, r. split; [by apply Hsub|done].
Qed.

(** C7, witness: B collapsed against A and B collapsed. *)
Lemma collapse_antitone_witness :
  ∃ visible1,
    visibleIds 3 linearData ["B"] all None = Some visible1
    ∧ ({["A"]} : gset string) ⊆ visible1.
Proof.
  apply (collapse_antitone 3 linearData ["B"] ["A"; "B"] None {["A"]}).
  - intros x Hx. by right.
  - by vm_compute.
Defined.

(** ** C8: connections reference placed nodes *)

(** C8, counterexample.  The claim bounds the parent-child connections by
    one per visible child.  With the child link (F, B) recorded twice, the
    placed nodes are A and B and two parent-child connections to B are
    emitted. *)
Lemma duplicate_link_two_connectors :
  (λ out, (Person.id ∘ TreeNodeData.person <$> nodes out, connections out))
    <$> buildTreeLayout 3 duplicateLinkData [] all None
  = Some (["A"; "B"],
          [ TreeConnectionData.mk "child-F-B" 0 100 0 160 parent_child true;
            TreeConnectionData.mk "child-F-B" 0 100 0 160 parent_child true ]).
Proof. by vm_compute. Qed.

(** C8, as amended.  Whenever the engine returns: every placed node is a
    visible person; the two ends of a couple connection are the centres of
    the placed nodes of the union's father and mother; a parent-child
    connection ends on the placed node of a child linked to the union, and
    its anchor is derived from the placed node of a recognized parent (its
    centre, or the midpoint with the other placed parent); there is exactly
    one couple connection per union record with two placed parents; the
    parent-child connections are, union by union, at most one per child-link
    record with a placed child; hence, when union identifiers are distinct
    and no person has two child links, at most one per placed child. *)
Theorem connections_reference_placed_nodes fuel data collapsed viewMode focus out :
  buildTreeLayout fuel data collapsed viewMode focus = Some out →
  let positions := personPositionsOf (nodes out) in
  (∀ n, n ∈ nodes out →
     TreeNodeData.person n ∈ people data
     ∧ ∃ visible, visibleIds fuel data collapsed viewMode focus = Some visible
                  ∧ Person.id (TreeNodeData.person n) ∈ visible)
  ∧ (∀ c, c ∈ connections out → isCouple c →
       ∃ family nf nm,
         family ∈ families data ∧ nf ∈ nodes out ∧ nm ∈ nodes out
         ∧ truthy (Family.father_id family) = Some (Person.id (TreeNodeData.person nf))
         ∧ truthy (Family.mother_id family) = Some (Person.id (TreeNodeData.person nm))
         ∧ TreeConnectionData.x1 c = TreeNodeData.x nf + NODE_WIDTH / 2
         ∧ TreeConnectionData.y1 c = TreeNodeData.y nf + NODE_HEIGHT / 2
         ∧ TreeConnectionData.x2 c = TreeNodeData.x nm + NODE_WIDTH / 2
         ∧ TreeConnectionData.y2 c = TreeNodeData.y nm + NODE_HEIGHT / 2)
  ∧ (∀ c, c ∈ connections out → isParentChild c →
       ∃ family link nc np,
         family ∈ families data ∧ link ∈ children data
         ∧ Child.family_id link = Family.id family
         ∧ nc ∈ nodes out
         ∧ Person.id (TreeNodeData.person nc) = Child.person_id link
         ∧ TreeConnectionData.x2 c = TreeNodeData.x nc + NODE_WIDTH / 2
         ∧ TreeConnectionData.y2 c = TreeNodeData.y nc
         ∧ np ∈ nodes out
         ∧ Person.id (TreeNodeData.person np) ∈ parentIdsOf family
         ∧ TreeConnectionData.y1 c = TreeNodeData.y np + NODE_HEIGHT
         ∧ (TreeConnectionData.x1 c = TreeNodeData.x np + NODE_WIDTH / 2
            ∨ ∃ nq, nq ∈ nodes out
                ∧ Person.id (TreeNodeData.person nq) ∈ parentIdsOf family
                ∧ TreeConnectionData.x1 c
                  = (TreeNodeData.x np + TreeNodeData.x nq) / 2 + NODE_WIDTH / 2))
  ∧ length (filter isCouple (connections out))
    = length (filter (bothPlaced positions) (families data))
  ∧ filter isParentChild (connections out)
    = families data ≫= childConnections positions collapsed (children data)
  ∧ (∀ family,
       (length (childConnections positions collapsed (children data) family)
        ≤ length (filter (childPlaced positions)
                         (familyChildrenOf (children data) family)))%nat)
  ∧ (NoDup (Family.id <$> families data) →
     NoDup (Child.person_id <$> children data) →
     (length (filter isParentChild (connections out))
      ≤ length (filter (childPlaced positions) (children data)))%nat
     ∧ NoDup (Child.person_id <$> filter (childPlaced positions) (children data))).
Proof.
  intros Hout positions.
  destruct (buildTreeLayout_Some _ _ _ _ _ _ Hout) as (visible & Hv & Hnodes & Hconns).
  split; [|split; [|split; [|split; [|split; [|split]]]]].
  - intros n Hn. rewrite Hnodes in Hn.
    apply layoutNodes_visible in Hn as [? ?]. eauto.
  - intros c Hc Htype. rewrite Hconns in Hc.
    apply elem_of_buildConnections in Hc as (family & Hfam & [Hc|Hc]).
    + apply elem_of_coupleConnection in Hc
        as (_ & f & m & fp & mp & Hf & Hfp & Hm & Hmp & ? & ? & ? & ?).
      apply personPositionsOf_Some in Hfp as (nf & ? & <- & ->).
      apply personPositionsOf_Some in Hmp as (nm & ? & <- & ->).
      by exists family, nf, nm.
    + apply elem_of_childConnections in Hc as [Hpc _].
      unfold isCouple in Htype. congruence.
  - intros c Hc Htype. rewrite Hconns in Hc.
    apply elem_of_buildConnections in Hc as (family & Hfam & [Hc|Hc]).
    + apply elem_of_coupleConnection in Hc as [Hcp _].
      unfold isParentChild in Htype. congruence.
    + apply elem_of_childConnections in Hc
        as (_ & _ & link & cp & p & pp & ? & ? & Hcp & ? & ? & ? & Hpp & ? & Hx).
      apply personPositionsOf_Some in Hcp as (nc & ? & ? & ->).
      apply personPositionsOf_Some in Hpp as (np & ? & <- & ->).
      exists family, link, nc, np. repeat split; try done.
      destruct Hx as [?|(q & qp & ? & Hqp & ?)]; [by left|right].
      apply personPositionsOf_Some in Hqp as (nq & ? & <- & ->).
      by exists nq.
  - rewrite Hconns. apply length_couples.
  - rewrite Hconns. apply filter_isParentChild_buildConnections.
  - intros family. apply length_childConnections.
  - intros Hfams Hlinks. split.
    + rewrite Hconns. unfold buildConnections.
      etrans; [by apply length_parentChild|].
      apply length_filter_mono. by intros link [? _].
    + eapply sublist_NoDup; [exact Hlinks|].
      apply fmap_sublist, sublist_filter.
Qed.

(** C8, witness: the couple F, M and their child C. *)
Lemma connections_reference_placed_nodes_witness :
  ∃ out,
    buildTreeLayout 3 coupleData [] all None = Some out
    ∧ length (filter isCouple (connections out))
      = length (filter (bothPlaced (personPositionsOf (nodes out)))
                       (families coupleData)).
Proof.
  destruct (buildTreeLayout 3 coupleData [] all None) as [out|] eqn:Hout;
    [|by vm_compute in Hout].
  exists out. split; [done|].
  exact (proj1 (proj2 (proj2 (proj2
    (connections_reference_placed_nodes 3 coupleData [] all None out Hout))))).
Defined.

(** ** C9: focused visibility does not depend on the collapse set *)

(** C9.  In the ancestors and descendants modes the resolver returns the
    same result for any two collapse sets, whatever the focus (present or
    not). *)
Theorem focused_visibility_ignores_collapse fuel data collapsed1 collapsed2 focus :
  visibleIds fuel data collapsed1 ancestors focus
  = visibleIds fuel data collapsed2 ancestors focus
  ∧ visibleIds fuel data collapsed1 descendants focus
    = visibleIds fuel data collapsed2 descendants focus.
Proof. by unfold visibleIds, getVisiblePeopleIds. Qed.

(** ** C10: a child of several unions *)

(** C10.  When a person is linked to several families, the parents the index
    records for the person are those of the last family, in list order,
    with a child link to the person.  The ancestors closure from that person
    then goes through these parents only: when it returns, the parents of
    that last family are visible, and an identifier is visible exactly when
    it is the person, one of these parents, or reached from one of them
    through the parents of last families; so a parent of an earlier family
    of the person is visible only if it is one of those.  On acyclic records
    the closure returns as soon as the stack is deeper than the ranking. *)
Theorem last_union_wins data fams1 family fams2 c :
  families data = fams1 ++ family :: fams2 →
  linked (children data) family c →
  (∀ family', family' ∈ fams2 → ¬ linked (children data) family' c) →
  childToParents (buildIndex data) !! c = Some (parentIdsOf family)
  ∧ (∀ p, lastParentOf data p c ↔ p ∈ parentIdsOf family)
  ∧ (∀ fuel collapsed visible,
       c ≠ "" →
       visibleIds fuel data collapsed ancestors (Some c) = Some visible →
       (∀ p, p ∈ parentIdsOf family → p ∈ visible)
       ∧ (∀ x, x ∈ visible
               ↔ x = c
                 ∨ ∃ p, p ∈ parentIdsOf family
                        ∧ (x = p ∨ tc (flip (lastParentOf data)) p x))
       ∧ (∀ q, q ≠ c → q ∉ parentIdsOf family →
               (∀ p, p ∈ parentIdsOf family →
                     ¬ tc (flip (lastParentOf data)) p q) →
               q ∉ visible))
  ∧ (∀ rank bound fuel collapsed,
       ranked rank bound data → (bound < fuel)%nat →
       is_Some (visibleIds fuel data collapsed ancestors (Some c))).
Proof.
  intros Hfams Hlinked Hlast.
  assert (childToParents (buildIndex data) !! c = Some (parentIdsOf family)) as Hc.
  { unfold buildIndex. rewrite Hfams. by apply childToParents_last. }
  assert (∀ p, lastParentOf data p c ↔ p ∈ parentIdsOf family) as Hparents.
  { intros p. rewrite <- lastParentOf_edge. unfold edge, getOrEmpty.
    by rewrite Hc. }
  split; [done|]. split; [done|]. split.
  - intros fuel collapsed visible Hne Hv.
    assert (∀ x, x ∈ visible
                 ↔ x = c
                   ∨ ∃ p, p ∈ parentIdsOf family
                          ∧ (x = p ∨ tc (flip (lastParentOf data)) p x)) as Hchar.
    { unfold visibleIds in Hv.
      rewrite (getVisiblePeopleIds_ancestors _ _ _ _ _ c) in Hv by by destruct c.
      destruct (reach _ _ _) as [R|] eqn:HR; simplify_eq/=. intros x.
      rewrite elem_of_union, elem_of_singleton, (reach_tc _ _ _ _ x HR).
      apply or_iff_compat_l.
      rewrite (tc_iff _ (flip (lastParentOf data)))
        by (intros a b; apply lastParentOf_edge).
      rewrite tc_step_iff. unfold flip at 1.
      apply exist_proper; intros p. by rewrite Hparents. }
    split; [|split; [done|]].
    + intros p Hp. apply Hchar. right. exists p. auto.
    + intros q Hq Hnp Hnot [?|(p & Hp & [->|Htc])]%Hchar; [done..|].
      by apply (Hnot p).
  - intros rank bound fuel collapsed Hr Hfuel. by eapply ranked_terminates.
Qed.

(** C10, witness: C is a child of U1 (father A) and of U2 (father B); the
    index records B only, and the ancestors of C go through B only. *)
Lemma last_union_wins_witness :
  childToParents (buildIndex twoUnionsData) !! "C" = Some ["B"]
  ∧ (∀ p, lastParentOf twoUnionsData p "C" ↔ p ∈ ["B"])
  ∧ (∀ fuel collapsed visible,
       "C" ≠ "" →
       visibleIds fuel twoUnionsData collapsed ancestors (Some "C") = Some visible →
       (∀ p, p ∈ ["B"] → p ∈ visible)
       ∧ (∀ x, x ∈ visible
               ↔ x = "C"
                 ∨ ∃ p, p ∈ ["B"]
                        ∧ (x = p ∨ tc (flip (lastParentOf twoUnionsData)) p x))
       ∧ (∀ q, q ≠ "C" → q ∉ ["B"] →
               (∀ p, p ∈ ["B"] →
                     ¬ tc (flip (lastParentOf twoUnionsData)) p q) →
               q ∉ visible))
  ∧ (∀ rank bound fuel collapsed,
       ranked rank bound twoUnionsData → (bound < fuel)%nat →
       is_Some (visibleIds fuel twoUnionsData collapsed ancestors (Some "C"))).
Proof.
  apply (last_union_wins twoUnionsData [Family.mk "U1" (Some "A") None]
           (Family.mk "U2" (Some "B") None) [] "C").
  - reflexivity.
  - apply (bool_decide_unpack _). vm_compute. exact I.
  - intros family' H. inversion H.
Defined.

(** The ancestors of C in that record set: B and C, not A. *)
Example two_unions_ancestors :
  visibleIds 3 twoUnionsData [] ancestors (Some "C") = Some {["B"; "C"]}.
Proof. by vm_compute. Qed.

(** * Further properties: which people are visible *)

Lemma descendantOf_edge data p x :
  tc (edge (parentToChildren (buildIndex data))) p x ↔ descendantOf data p x.
Proof. apply tc_iff. intros a b. apply elem_of_parentToChildren. Qed.

Lemma childToParents_linked_is_Some children idx fams c :
  (∃ family, family ∈ fams ∧ linked children family c) →
  is_Some (childToParents (foldl (indexFamily children) idx fams) !! c).
Proof.
  intros (family & Hfam & Hl). revert idx.
  induction fams as [|fam fams IH] using rev_ind; intros idx; [inversion Hfam|].
  rewrite foldl_snoc, childToParents_indexFamily.
  case_decide as Hlast; [eauto|].
  apply elem_of_app in Hfam as [Hfam|Hfam%list_elem_of_singleton]; [auto|].
  by subst.
Qed.

Lemma singleParentage_spec data family1 family2 c :
  singleParentage data →
  family1 ∈ families data → family2 ∈ families data →
  linked (children data) family1 c → linked (children data) family2 c →
  parentIdsOf family1 = parentIdsOf family2.
Proof.
  unfold singleParentage. rewrite Forall_forall. intros H H1 H2 Hl1 Hl2.
  specialize (H family1 H1). rewrite Forall_forall in H.
  specialize (H family2 H2). rewrite Forall_forall in H.
  unfold linked in Hl1. apply list_elem_of_fmap in Hl1 as (link & -> & Hlink).
  by apply (H link).
Qed.

Lemma childToParents_parentOf data c p :
  singleParentage data →
  p ∈ getOrEmpty (childToParents (buildIndex data)) c ↔ parentOf data p c.
Proof.
  intros Hsingle. split; [apply elem_of_childToParents|].
  intros (family & Hfam & Hp & Hl).
  destruct (childToParents_linked_is_Some (children data) (mkIndex ∅ ∅)
              (families data) c) as [ps Hps]; [by exists family|].
  unfold getOrEmpty, buildIndex. rewrite Hps. simpl.
  apply childToParents_Some_inv in Hps as [Hps|(family' & Hfam' & -> & Hl')].
  { simpl in Hps. by rewrite lookup_empty in Hps. }
  by rewrite <- (singleParentage_spec data family family' c).
Qed.

(** X1.  In All mode, when the resolver returns, an identifier is visible
    exactly when it is a person's and no chain of recorded parent/child
    pairs leads to it from a collapsed identifier. *)
Theorem all_mode_hides_exactly_descendants fuel data collapsed focus visible :
  visibleIds fuel data collapsed all focus = Some visible →
  ∀ x, x ∈ visible
       ↔ x ∈ peopleIds (people data)
         ∧ ¬ ∃ p, p ∈ collapsed ∧ descendantOf data p x.
Proof.
  unfold visibleIds. rewrite getVisiblePeopleIds_all.
  destruct (collect _ _ _) as [R|] eqn:HR; [|done]. simpl. intros [= <-] x.
  rewrite elem_of_difference, (collect_elem_of _ _ _ _ x HR).
  apply and_iff_compat_l, not_iff_compat. split.
  - intros [Hx|(p & r & Hp & Hr & Hx)]; [set_solver|].
    exists p. split; [done|]. apply descendantOf_edge. by eapply reach_tc.
  - intros (p & Hp & Hd). right.
    destruct (proj1 (collect_is_Some _ _ _) (mk_is_Some _ _ HR) p Hp) as [r Hr].
    exists p, r. split; [done|]. split; [done|].
    apply (reach_tc _ _ _ _ _ Hr). by apply descendantOf_edge.
Qed.

Lemma all_mode_hides_exactly_descendants_witness :
  "C" ∈ ({["A"]} : gset string)
  ↔ "C" ∈ peopleIds (people linearData)
    ∧ ¬ ∃ p, p ∈ ["A"] ∧ descendantOf linearData p "C".
Proof.
  apply (all_mode_hides_exactly_descendants 3 linearData ["A"] None).
  by vm_compute.
Defined.

(** X2.  In descendants mode with a focus, when the resolver returns, the
    visible identifiers are the focus and everything a chain of recorded
    parent/child pairs leads to from the focus, and nothing else. *)
Theorem descendants_mode_closure fuel data collapsed focus f visible :
  truthy focus = Some f →
  visibleIds fuel data collapsed descendants focus = Some visible →
  ∀ x, x ∈ visible ↔ x = f ∨ descendantOf data f x.
Proof.
  intros Hf. unfold visibleIds.
  rewrite (getVisiblePeopleIds_descendants _ _ _ _ _ f Hf).
  destruct (reach _ _ _) as [R|] eqn:HR; [|done]. simpl. intros [= <-] x.
  rewrite elem_of_union, elem_of_singleton, (reach_tc _ _ _ _ x HR).
  by rewrite descendantOf_edge.
Qed.

Lemma descendants_mode_closure_witness :
  "C" ∈ ({["B"; "C"]} : gset string) ↔ "C" = "B" ∨ descendantOf linearData "B" "C".
Proof.
  apply (descendants_mode_closure 3 linearData [] (Some "B") "B"); by vm_compute.
Defined.

(** X3.  In ancestors mode with a focus, when the resolver returns, every
    visible identifier is the focus or is reached from it by a chain of
    recorded child/parent pairs; and when no child is linked to two families
    with different parents, the visible identifiers are exactly those. *)
Theorem ancestors_mode_closure fuel data collapsed focus f visible :
  truthy focus = Some f →
  visibleIds fuel data collapsed ancestors focus = Some visible →
  (∀ x, x ∈ visible → x = f ∨ ancestorOf data f x)
  ∧ (singleParentage data →
     ∀ x, x ∈ visible ↔ x = f ∨ ancestorOf data f x).
Proof.
  intros Hf. unfold visibleIds.
  rewrite (getVisiblePeopleIds_ancestors _ _ _ _ _ f Hf).
  destruct (reach _ _ _) as [R|] eqn:HR; [|done]. simpl. intros [= <-].
  split.
  - intros x [->%elem_of_singleton|Hx]%elem_of_union; [by left|right].
    apply (reach_tc _ _ _ _ _ HR) in Hx. unfold ancestorOf.
    clear HR Hf. induction Hx as [c p H|c p x H _ IH].
    + apply tc_once. by apply elem_of_childToParents.
    + eapply tc_l; [|exact IH]. by apply elem_of_childToParents.
  - intros Hsingle x.
    rewrite elem_of_union, elem_of_singleton, (reach_tc _ _ _ _ x HR).
    unfold ancestorOf. apply or_iff_compat_l, tc_iff. intros c p.
    by apply childToParents_parentOf.
Qed.

Lemma ancestors_mode_closure_witness :
  (∀ x, x ∈ ({["A"; "B"; "C"]} : gset string) → x = "C" ∨ ancestorOf linearData "C" x)
  ∧ (singleParentage linearData →
     ∀ x, x ∈ ({["A"; "B"; "C"]} : gset string)
          ↔ x = "C" ∨ ancestorOf linearData "C" x).
Proof.
  apply (ancestors_mode_closure 3 linearData [] (Some "C") "C"); by vm_compute.
Defined.

Lemma descendantOf_rank rank bound data p x :
  ranked rank bound data → descendantOf data p x → (rank x < rank p)%nat.
Proof.
  intros Hr. induction 1 as [p x H|p c x H _ IH].
  - by apply (ranked_parentOf _ _ _ _ _ Hr) in H as [? _].
  - apply (ranked_parentOf _ _ _ _ _ Hr) in H as [? _]. lia.
Qed.

(** X4.  On acyclic records, collapsing a single person in All mode
    returns, keeps that person visible and hides exactly the people a chain
    of recorded parent/child pairs leads to from that person. *)
Theorem single_collapse_keeps_person rank bound data p focus :
  ranked rank bound data →
  p ∈ peopleIds (people data) →
  ∃ visible,
    visibleIds (S bound) data [p] all focus = Some visible
    ∧ p ∈ visible
    ∧ ∀ x, x ∈ visible ↔ x ∈ peopleIds (people data) ∧ ¬ descendantOf data p x.
Proof.
  intros Hr Hp.
  destruct (ranked_terminates rank bound data (S bound) [p] all focus Hr)
    as [visible Hv]; [lia|].
  exists visible. split; [done|].
  pose proof (all_mode_hides_exactly_descendants _ _ _ _ _ Hv) as Hchar.
  assert (∀ x, x ∈ visible
               ↔ x ∈ peopleIds (people data) ∧ ¬ descendantOf data p x) as H.
  { intros x. rewrite Hchar. apply and_iff_compat_l, not_iff_compat.
    split; [by intros (q & ->%list_elem_of_singleton & ?)|].
    intros ?. exists p. split; [left|done]. }
  split; [|done]. apply H. split; [done|].
  intros Hd%(descendantOf_rank rank bound). lia. done.
Qed.

Lemma single_collapse_keeps_person_witness :
  ∃ visible,
    visibleIds 3 linearData ["B"] all None = Some visible
    ∧ "B" ∈ visible
    ∧ ∀ x, x ∈ visible
           ↔ x ∈ peopleIds (people linearData) ∧ ¬ descendantOf linearData "B" x.
Proof.
  apply (single_collapse_keeps_person linearRank 2 linearData "B" None).
  - apply (bool_decide_unpack _). vm_compute. exact I.
  - apply (bool_decide_unpack _). vm_compute. exact I.
Defined.

(** ** The collapse set matters only as a set *)

Section same_collapse.
Context (collapsed1 collapsed2 : list string).
Context (Hsame : ∀ i, i ∈ collapsed1 ↔ i ∈ collapsed2).

Lemma visibleIds_same_collapse fuel data viewMode focus :
  visibleIds fuel data collapsed1 viewMode focus
  = visibleIds fuel data collapsed2 viewMode focus.
Proof.
  unfold visibleIds. destruct viewMode; [|done..].
  rewrite !getVisiblePeopleIds_all. f_equal. by apply collect_set_ext.
Qed.

Lemma layoutNodes_same_collapse people p2c vp :
  layoutNodes people p2c collapsed1 vp = layoutNodes people p2c collapsed2 vp.
Proof.
  unfold layoutNodes. f_equal. apply imap_ext. intros r g _.
  unfold layoutRow. apply imap_ext. intros i p _. simpl. f_equal.
  by apply bool_decide_ext.
Qed.

Lemma isParentCollapsed_same_collapse family :
  isParentCollapsed collapsed1 family = isParentCollapsed collapsed2 family.
Proof. unfold isParentCollapsed. case_match; [|done]. by apply bool_decide_ext. Qed.

Lemma buildConnections_same_collapse data placed :
  buildConnections data collapsed1 placed = buildConnections data collapsed2 placed.
Proof.
  unfold buildConnections. f_equal. apply list_fmap_ext. intros _ family _.
  unfold familyConnections, childConnections.
  by rewrite isParentCollapsed_same_collapse.
Qed.

Lemma buildTreeLayout_same_collapse fuel data viewMode focus :
  buildTreeLayout fuel data collapsed1 viewMode focus
  = buildTreeLayout fuel data collapsed2 viewMode focus.
Proof.
  unfold buildTreeLayout.
  pose proof (visibleIds_same_collapse fuel data viewMode focus) as Hv.
  unfold visibleIds in Hv. rewrite Hv.
  destruct (getVisiblePeopleIds _ _ _ collapsed2 _ _) as [visible|]; [|done].
  simpl. f_equal. unfold layoutOf.
  by rewrite layoutNodes_same_collapse, buildConnections_same_collapse.
Qed.
End same_collapse.

Lemma elem_of_toggleCollapsed personId prev i :
  i ∈ toggleCollapsed personId prev
  ↔ (i = personId ∧ personId ∉ prev) ∨ (i ≠ personId ∧ i ∈ prev).
Proof.
  unfold toggleCollapsed. case_decide as Hin.
  - rewrite list_elem_of_filter. naive_solver.
  - rewrite elem_of_app, list_elem_of_singleton.
    destruct (decide (i = personId)); naive_solver.
Qed.

(** X6.  Toggling an identifier flips its membership in the collapse set
    and nothing else, never lists an identifier twice, and toggling the
    same identifier twice gives back the same result of [buildTreeLayout]
    (nodes, connections and bounds) in every view mode. *)
Theorem toggle_collapse_twice fuel data personId collapsed viewMode focus :
  (∀ i, i ∈ toggleCollapsed personId collapsed
        ↔ (i = personId ∧ personId ∉ collapsed) ∨ (i ≠ personId ∧ i ∈ collapsed))
  ∧ (NoDup collapsed → NoDup (toggleCollapsed personId collapsed))
  ∧ buildTreeLayout fuel data
      (toggleCollapsed personId (toggleCollapsed personId collapsed))
      viewMode focus
    = buildTreeLayout fuel data collapsed viewMode focus.
Proof.
  split; [apply elem_of_toggleCollapsed|]. split.
  - intros Hnd. unfold toggleCollapsed. case_decide as Hin.
    + by apply NoDup_filter.
    + apply NoDup_app. split; [done|]. split; [|apply NoDup_singleton].
      intros i Hi ->%list_elem_of_singleton. done.
  - apply buildTreeLayout_same_collapse. intros i.
    rewrite !elem_of_toggleCollapsed.
    destruct (decide (i = personId)), (decide (personId ∈ collapsed)); naive_solver.
Qed.

(** X5.  The order in which the collapse set enumerates its members does
    not matter: two enumerations of the same set give the same result of
    [buildTreeLayout], in every view mode. *)
Theorem collapse_set_order_irrelevant fuel data (collapsed1 collapsed2 : list string)
    viewMode focus :
  collapsed1 ≡ₚ collapsed2 →
  buildTreeLayout fuel data collapsed1 viewMode focus
  = buildTreeLayout fuel data collapsed2 viewMode focus.
Proof.
  intros Hp. apply buildTreeLayout_same_collapse. intros i. by rewrite Hp.
Qed.

Lemma collapse_set_order_irrelevant_witness :
  buildTreeLayout 3 linearData ["A"; "B"] all None
  = buildTreeLayout 3 linearData ["B"; "A"] all None.
Proof.
  apply collapse_set_order_irrelevant. apply Permutation_swap.
Defined.

(** * Further properties: the drawing *)

(** ** Bounds *)

Lemma boundsOf_snoc nodes n :
  boundsOf (nodes ++ [n])
  = (Z.min (boundsOf nodes).1.1 (TreeNodeData.x n),
     Z.max (boundsOf nodes).1.2 (TreeNodeData.x n + NODE_WIDTH),
     Z.max (boundsOf nodes).2 (TreeNodeData.y n + NODE_HEIGHT)).
Proof.
  unfold boundsOf. rewrite foldl_snoc. by destruct (foldl _ _ nodes) as [[a b] c].
Qed.

Lemma boundsOf_spec nodes :
  (boundsOf nodes).1.1 ≤ 0 ∧ 0 ≤ (boundsOf nodes).1.2 ∧ 0 ≤ (boundsOf nodes).2
  ∧ (∀ n, n ∈ nodes →
       (boundsOf nodes).1.1 ≤ TreeNodeData.x n
       ∧ TreeNodeData.x n + NODE_WIDTH ≤ (boundsOf nodes).1.2
       ∧ TreeNodeData.y n + NODE_HEIGHT ≤ (boundsOf nodes).2)
  ∧ ((boundsOf nodes).1.1 = 0
     ∨ ∃ n, n ∈ nodes ∧ (boundsOf nodes).1.1 = TreeNodeData.x n)
  ∧ ((boundsOf nodes).1.2 = 0
     ∨ ∃ n, n ∈ nodes ∧ (boundsOf nodes).1.2 = TreeNodeData.x n + NODE_WIDTH)
  ∧ ((boundsOf nodes).2 = 0
     ∨ ∃ n, n ∈ nodes ∧ (boundsOf nodes).2 = TreeNodeData.y n + NODE_HEIGHT).
Proof.
  induction nodes as [|n nodes IH] using rev_ind.
  - simpl. split; [done|]. split; [done|]. split; [done|].
    split; [intros ? H; inversion H|]. repeat split; by left.
  - rewrite boundsOf_snoc. simpl.
    destruct IH as (Ha & Hb & Hc & Hall & Hmin & Hmax & Hmaxy).
    split; [lia|]. split; [lia|]. split; [lia|]. split; [|split; [|split]].
    + intros n' [Hn' | ->%list_elem_of_singleton]%elem_of_app; [|lia].
      specialize (Hall n' Hn'). lia.
    + destruct (Z.min_spec (boundsOf nodes).1.1 (TreeNodeData.x n))
        as [[_ ->]|[_ ->]].
      * destruct Hmin as [?|(n' & ? & ?)]; [by left|right].
        exists n'. rewrite elem_of_app. auto.
      * right. exists n. rewrite elem_of_app, list_elem_of_singleton. auto.
    + destruct (Z.max_spec (boundsOf nodes).1.2 (TreeNodeData.x n + NODE_WIDTH))
        as [[_ ->]|[_ ->]].
      * right. exists n. rewrite elem_of_app, list_elem_of_singleton. auto.
      * destruct Hmax as [?|(n' & ? & ?)]; [by left|right].
        exists n'. rewrite elem_of_app. auto.
    + destruct (Z.max_spec (boundsOf nodes).2 (TreeNodeData.y n + NODE_HEIGHT))
        as [[_ ->]|[_ ->]].
      * right. exists n. rewrite elem_of_app, list_elem_of_singleton. auto.
      * destruct Hmaxy as [?|(n' & ? & ?)]; [by left|right].
        exists n'. rewrite elem_of_app. auto.
Qed.

Lemma buildTreeLayout_bounds fuel data collapsed viewMode focus out :
  buildTreeLayout fuel data collapsed viewMode focus = Some out →
  width out = (boundsOf (nodes out)).1.2 - (boundsOf (nodes out)).1.1 + 100
  ∧ height out = (boundsOf (nodes out)).2 + 50
  ∧ offsetX out = - (boundsOf (nodes out)).1.1 + 50.
Proof.
  unfold buildTreeLayout.
  destruct (getVisiblePeopleIds _ _ _ _ _ _) as [visible|]; [|done].
  simpl. intros [= <-].
  by destruct (layoutOf_fields data (buildIndex data) collapsed visible)
    as (-> & _ & -> & -> & ->).
Qed.

Lemma layoutNodes_y people p2c collapsed vp n :
  n ∈ layoutNodes people p2c collapsed vp → 20 ≤ TreeNodeData.y n.
Proof.
  intros (r & g & i & p & _ & _ & ->)%elem_of_layoutNodes. simpl.
  unfold LEVEL_HEIGHT. lia.
Qed.

(** X7.  The bounds contain the drawing: the width is at least 100, the
    height at least 50, the offset at least 50, and every node, shifted
    right by [offsetX], lies between 50 and [width - 50] horizontally and
    between 20 and [height - 50] vertically. *)
Theorem bounds_contain_nodes fuel data collapsed viewMode focus out :
  buildTreeLayout fuel data collapsed viewMode focus = Some out →
  100 ≤ width out ∧ 50 ≤ height out ∧ 50 ≤ offsetX out
  ∧ ∀ n, n ∈ nodes out →
      50 ≤ TreeNodeData.x n + offsetX out
      ∧ TreeNodeData.x n + offsetX out + NODE_WIDTH ≤ width out - 50
      ∧ 20 ≤ TreeNodeData.y n
      ∧ TreeNodeData.y n + NODE_HEIGHT ≤ height out - 50.
Proof.
  intros Hout.
  destruct (buildTreeLayout_bounds _ _ _ _ _ _ Hout) as (-> & -> & ->).
  destruct (boundsOf_spec (nodes out)) as (Ha & Hb & Hc & Hall & _).
  split; [lia|]. split; [lia|]. split; [lia|]. intros n Hn.
  destruct (Hall n Hn) as (? & ? & ?).
  apply buildTreeLayout_Some in Hout as (visible & _ & Hnodes & _).
  rewrite Hnodes in Hn. apply layoutNodes_y in Hn. lia.
Qed.

Lemma bounds_contain_nodes_witness :
  ∃ out,
    buildTreeLayout 3 coupleData [] all None = Some out
    ∧ 100 ≤ width out ∧ 50 ≤ height out ∧ 50 ≤ offsetX out
    ∧ ∀ n, n ∈ nodes out →
        50 ≤ TreeNodeData.x n + offsetX out
        ∧ TreeNodeData.x n + offsetX out + NODE_WIDTH ≤ width out - 50
        ∧ 20 ≤ TreeNodeData.y n
        ∧ TreeNodeData.y n + NODE_HEIGHT ≤ height out - 50.
Proof.
  destruct (buildTreeLayout 3 coupleData [] all None) as [out|] eqn:Hout;
    [|by vm_compute in Hout].
  exists out. split; [done|].
  exact (bounds_contain_nodes 3 coupleData [] all None out Hout).
Defined.

Lemma layoutNodes_mirror people p2c collapsed vp n :
  n ∈ layoutNodes people p2c collapsed vp →
  ∃ n', n' ∈ layoutNodes people p2c collapsed vp
        ∧ TreeNodeData.x n' + NODE_WIDTH = - TreeNodeData.x n.
Proof.
  intros (r & g & i & p & Hg & Hp & ->)%elem_of_layoutNodes.
  pose proof (lookup_lt_Some _ _ _ Hp) as Hi.
  destruct (lookup_lt_is_Some_2 (generationRow vp g)
              (length (generationRow vp g) - 1 - i)%nat) as [p' Hp']; [lia|].
  exists (placeNode people p2c collapsed r (length (generationRow vp g))
            (length (generationRow vp g) - 1 - i) p').
  split.
  - apply elem_of_layoutNodes.
    by exists r, g, (length (generationRow vp g) - 1 - i)%nat, p'.
  - rewrite !placeNode_x_even. unfold NODE_WIDTH. lia.
Qed.

(** X8.  The drawing is centred: [offsetX] is exactly half of [width],
    because every row is laid out symmetrically around x = 0. *)
Theorem drawing_is_centred fuel data collapsed viewMode focus out :
  buildTreeLayout fuel data collapsed viewMode focus = Some out →
  2 * offsetX out = width out.
Proof.
  intros Hout.
  destruct (buildTreeLayout_bounds _ _ _ _ _ _ Hout) as (-> & _ & ->).
  destruct (boundsOf_spec (nodes out)) as (Ha & Hb & _ & Hall & Hmin & Hmax & _).
  apply buildTreeLayout_Some in Hout as (visible & _ & Hnodes & _).
  assert ((boundsOf (nodes out)).1.2 = - (boundsOf (nodes out)).1.1); [|lia].
  apply Z.le_antisymm.
  - destruct Hmax as [->|(n & Hn & ->)]; [lia|].
    pose proof Hn as Hn'. rewrite Hnodes in Hn'.
    apply layoutNodes_mirror in Hn' as (n' & Hn' & Hx).
    rewrite <- Hnodes in Hn'. destruct (Hall n' Hn') as (? & _). lia.
  - destruct Hmin as [->|(n & Hn & ->)]; [lia|].
    pose proof Hn as Hn'. rewrite Hnodes in Hn'.
    apply layoutNodes_mirror in Hn' as (n' & Hn' & Hx).
    rewrite <- Hnodes in Hn'. destruct (Hall n' Hn') as (_ & ? & _). lia.
Qed.

Lemma drawing_is_centred_witness :
  ∃ out,
    buildTreeLayout 3 coupleData [] all None = Some out
    ∧ 2 * offsetX out = width out.
Proof.
  destruct (buildTreeLayout 3 coupleData [] all None) as [out|] eqn:Hout;
    [|by vm_compute in Hout].
  exists out. split; [done|].
  exact (drawing_is_centred 3 coupleData [] all None out Hout).
Defined.

(** ** Every visible person is placed once *)

Lemma mjoin_filter_skip {A} (f : A → Z) (ks : list Z) (a : A) (l : list A) :
  f a ∉ ks →
  mjoin ((λ k, filter (λ a, f a = k) (a :: l)) <$> ks)
  = mjoin ((λ k, filter (λ a, f a = k) l) <$> ks).
Proof.
  induction ks as [|k ks IH]; intros Hk; [done|]. csimpl.
  rewrite filter_cons, decide_False by (intros Heq; apply Hk; rewrite Heq; left).
  f_equal. apply IH. intros ?. apply Hk. by right.
Qed.

Lemma mjoin_filter_by_key {A} (f : A → Z) (ks : list Z) (l : list A) :
  NoDup ks → (∀ a, a ∈ l → f a ∈ ks) →
  mjoin ((λ k, filter (λ a, f a = k) l) <$> ks) ≡ₚ l.
Proof.
  intros Hnd. induction l as [|a l IH]; intros Hks.
  - clear Hnd Hks. induction ks as [|k ks IH]; [done|]. by csimpl.
  - trans (a :: mjoin ((λ k, filter (λ a, f a = k) l) <$> ks));
      [|f_equiv; apply IH; intros; apply Hks; by right].
    assert (f a ∈ ks) as Ha by (apply Hks; left).
    clear IH Hks. induction Hnd as [|k ks Hk Hnd IH]; [inversion Ha|].
    csimpl. rewrite filter_cons. case_decide as Hfa.
    + subst k. simpl. f_equiv. by rewrite mjoin_filter_skip.
    + apply elem_of_cons in Ha as [?|Ha]; [done|].
      rewrite (IH Ha). by rewrite Permutation_middle.
Qed.

Lemma layoutNodes_Permutation people p2c collapsed vp :
  TreeNodeData.person <$> layoutNodes people p2c collapsed vp ≡ₚ vp.
Proof.
  rewrite person_layoutNodes. apply mjoin_filter_by_key.
  - pose proof (generationsOf_sorted (groupByGeneration vp)) as Hs.
    induction Hs as [|g gens _ IH Hall]; constructor; [|done].
    intros Hg. rewrite Forall_forall in Hall. specialize (Hall g Hg). lia.
  - intros p Hp. apply elem_of_generationsOf. by exists p.
Qed.

(** X9.  The placed nodes are the visible people, each exactly once (in
    another order: by row); so when people have distinct identifiers, so do
    the nodes. *)
Theorem visible_people_placed_once fuel data collapsed viewMode focus out :
  buildTreeLayout fuel data collapsed viewMode focus = Some out →
  ∃ visible,
    visibleIds fuel data collapsed viewMode focus = Some visible
    ∧ TreeNodeData.person <$> nodes out
      ≡ₚ filter (λ p, Person.id p ∈ visible) (people data)
    ∧ (NoDup (Person.id <$> people data) →
       NoDup (Person.id ∘ TreeNodeData.person <$> nodes out)).
Proof.
  intros (visible & Hv & -> & _)%buildTreeLayout_Some.
  exists visible. split; [done|]. split; [apply layoutNodes_Permutation|].
  intros Hnd. rewrite list_fmap_compose, layoutNodes_Permutation.
  eapply sublist_NoDup; [exact Hnd|]. apply fmap_sublist, sublist_filter.
Qed.

Lemma visible_people_placed_once_witness :
  ∃ out,
    buildTreeLayout 3 linearData ["B"] all None = Some out
    ∧ ∃ visible,
        visibleIds 3 linearData ["B"] all None = Some visible
        ∧ TreeNodeData.person <$> nodes out
          ≡ₚ filter (λ p, Person.id p ∈ visible) (people linearData)
        ∧ (NoDup (Person.id <$> people linearData) →
           NoDup (Person.id ∘ TreeNodeData.person <$> nodes out)).
Proof.
  destruct (buildTreeLayout 3 linearData ["B"] all None) as [out|] eqn:Hout;
    [|by vm_compute in Hout].
  exists out. split; [done|].
  exact (visible_people_placed_once 3 linearData ["B"] all None out Hout).
Defined.

(** ** Flags *)

(** X10.  Of a placed node: [hasChildren] holds exactly when some family
    lists the person as a parent and has a child link to somebody among the
    people (visible or not); [isCollapsed] holds exactly when the person is
    in the collapse set; [isVisible] always holds. *)
Theorem node_flags fuel data collapsed viewMode focus out n :
  buildTreeLayout fuel data collapsed viewMode focus = Some out →
  n ∈ nodes out →
  (TreeNodeData.hasChildren n = true
   ↔ ∃ c, parentOf data (Person.id (TreeNodeData.person n)) c
          ∧ c ∈ peopleIds (people data))
  ∧ (TreeNodeData.isCollapsed n = true
     ↔ Person.id (TreeNodeData.person n) ∈ collapsed)
  ∧ TreeNodeData.isVisible n = true.
Proof.
  intros (visible & _ & -> & _)%buildTreeLayout_Some
         (r & g & i & p & _ & _ & ->)%elem_of_layoutNodes.
  simpl. split; [|split; [|done]].
  - unfold hasChildrenOf. rewrite existsb_exists.
    setoid_rewrite existsb_exists. setoid_rewrite <- list_elem_of_In.
    setoid_rewrite bool_decide_eq_true. setoid_rewrite elem_of_peopleIds.
    setoid_rewrite elem_of_parentToChildren. done.
  - by rewrite bool_decide_eq_true.
Qed.

Lemma node_flags_witness :
  ∃ out,
    buildTreeLayout 3 linearData ["A"] all None = Some out
    ∧ ∀ n, n ∈ nodes out →
        (TreeNodeData.hasChildren n = true
         ↔ ∃ c, parentOf linearData (Person.id (TreeNodeData.person n)) c
                ∧ c ∈ peopleIds (people linearData))
        ∧ (TreeNodeData.isCollapsed n = true
           ↔ Person.id (TreeNodeData.person n) ∈ ["A"])
        ∧ TreeNodeData.isVisible n = true.
Proof.
  destruct (buildTreeLayout 3 linearData ["A"] all None) as [out|] eqn:Hout;
    [|by vm_compute in Hout].
  exists out. split; [done|]. intros n Hn.
  exact (node_flags 3 linearData ["A"] all None out n Hout Hn).
Defined.

(** ** Rows follow generations *)

Lemma StronglySorted_lookup_lt (l : list Z) (i j : nat) a b :
  StronglySorted Z.lt l → l !! i = Some a → l !! j = Some b →
  (i < j)%nat → a < b.
Proof.
  intros Hs. revert i j. induction Hs as [|x l Hs IH Hall]; intros i j Hi Hj Hij.
  - done.
  - destruct i as [|i], j as [|j]; simplify_eq/=; try lia.
    + rewrite Forall_forall in Hall. apply Hall. by eapply list_elem_of_lookup_2.
    + eapply IH; eauto. lia.
Qed.

(** X11.  Rows follow generations: of two placed nodes, the one of the
    smaller generation is strictly higher up, and two nodes are at the same
    height exactly when their generations are equal ([generationOf]: a
    missing or zero generation counts as 1). *)
Theorem rows_follow_generations people p2c collapsed visiblePeople n1 n2 :
  n1 ∈ layoutNodes people p2c collapsed visiblePeople →
  n2 ∈ layoutNodes people p2c collapsed visiblePeople →
  (generationOf (TreeNodeData.person n1) < generationOf (TreeNodeData.person n2)
   ↔ TreeNodeData.y n1 < TreeNodeData.y n2)
  ∧ (generationOf (TreeNodeData.person n1) = generationOf (TreeNodeData.person n2)
     ↔ TreeNodeData.y n1 = TreeNodeData.y n2).
Proof.
  intros (r1 & g1 & i1 & p1 & Hg1 & Hp1 & ->)%elem_of_layoutNodes
         (r2 & g2 & i2 & p2 & Hg2 & Hp2 & ->)%elem_of_layoutNodes.
  simpl.
  apply list_elem_of_lookup_2, list_elem_of_filter in Hp1 as [-> _].
  apply list_elem_of_lookup_2, list_elem_of_filter in Hp2 as [-> _].
  pose proof (generationsOf_sorted (groupByGeneration visiblePeople)) as Hs.
  pose proof (StronglySorted_lookup_lt _ r1 r2 _ _ Hs Hg1 Hg2) as H12.
  pose proof (StronglySorted_lookup_lt _ r2 r1 _ _ Hs Hg2 Hg1) as H21.
  unfold LEVEL_HEIGHT.
  destruct (Nat.lt_trichotomy r1 r2) as [?|[->|?]];
    [specialize (H12 ltac:(done)) | simplify_eq | specialize (H21 ltac:(done))];
    lia.
Qed.

Lemma rows_follow_generations_witness :
  let a := placeNode (people linearData) ∅ [] 0 1 0 (Person.mk "A" (Some 1)) in
  let b := placeNode (people linearData) ∅ [] 1 1 0 (Person.mk "B" (Some 2)) in
  (generationOf (TreeNodeData.person a) < generationOf (TreeNodeData.person b)
   ↔ TreeNodeData.y a < TreeNodeData.y b)
  ∧ (generationOf (TreeNodeData.person a) = generationOf (TreeNodeData.person b)
     ↔ TreeNodeData.y a = TreeNodeData.y b).
Proof.
  apply (rows_follow_generations (people linearData) ∅ [] (people linearData)).
  - apply elem_of_layoutNodes. by exists 0%nat, 1, 0%nat, (Person.mk "A" (Some 1)).
  - apply elem_of_layoutNodes. by exists 1%nat, 2, 0%nat, (Person.mk "B" (Some 2)).
Defined.

(** ** Positions of placed nodes, looked up *)

Lemma personPositionsOf_lookup_NoDup nodes n :
  NoDup (Person.id ∘ TreeNodeData.person <$> nodes) → n ∈ nodes →
  personPositionsOf nodes !! Person.id (TreeNodeData.person n)
  = Some (TreeNodeData.x n, TreeNodeData.y n).
Proof.
  induction nodes as [|n' nodes IH] using rev_ind; [by inversion 2|].
  rewrite fmap_app, NoDup_app. intros (Hnd & Hdisj & _) Hn.
  rewrite personPositionsOf_snoc.
  apply elem_of_app in Hn as [Hn | ->%list_elem_of_singleton].
  - rewrite lookup_insert_ne; [by apply IH|].
    intros Heq. apply (Hdisj (Person.id (TreeNodeData.person n))).
    + apply list_elem_of_fmap. by exists n.
    + simpl. rewrite <- Heq. left.
  - by rewrite lookup_insert_eq.
Qed.

(** X12.  The position map built from the placed nodes has an entry exactly
    for the identifiers of placed people, and when people have distinct
    identifiers the entry of a node's person is that node's coordinates. *)
Theorem placed_position_lookup fuel data collapsed viewMode focus out :
  buildTreeLayout fuel data collapsed viewMode focus = Some out →
  (∀ i, is_Some (personPositionsOf (nodes out) !! i)
        ↔ ∃ n, n ∈ nodes out ∧ Person.id (TreeNodeData.person n) = i)
  ∧ (NoDup (Person.id <$> people data) →
     ∀ n, n ∈ nodes out →
       personPositionsOf (nodes out) !! Person.id (TreeNodeData.person n)
       = Some (TreeNodeData.x n, TreeNodeData.y n)).
Proof.
  intros Hout. split.
  - intros i. rewrite personPositionsOf_is_Some, list_elem_of_fmap. naive_solver.
  - intros Hnd n Hn. apply personPositionsOf_lookup_NoDup; [|done].
    apply buildTreeLayout_Some in Hout as (visible & _ & -> & _).
    rewrite list_fmap_compose, layoutNodes_Permutation.
    eapply sublist_NoDup; [exact Hnd|]. apply fmap_sublist, sublist_filter.
Qed.

Lemma placed_position_lookup_witness :
  ∃ out,
    buildTreeLayout 3 coupleData [] all None = Some out
    ∧ (∀ i, is_Some (personPositionsOf (nodes out) !! i)
            ↔ ∃ n, n ∈ nodes out ∧ Person.id (TreeNodeData.person n) = i)
    ∧ (NoDup (Person.id <$> people coupleData) →
       ∀ n, n ∈ nodes out →
         personPositionsOf (nodes out) !! Person.id (TreeNodeData.person n)
         = Some (TreeNodeData.x n, TreeNodeData.y n)).
Proof.
  destruct (buildTreeLayout 3 coupleData [] all None) as [out|] eqn:Hout;
    [|by vm_compute in Hout].
  exists out. split; [done|].
  exact (placed_position_lookup 3 coupleData [] all None out Hout).
Defined.

(** ** Nothing to draw *)

Lemma buildConnections_nil data collapsed : buildConnections data collapsed [] = [].
Proof.
  unfold buildConnections. induction (families data) as [|fam fams IH]; [done|].
  csimpl. rewrite IH. unfold familyConnections, coupleConnection, childConnections,
    positionOf, personPositionsOf. simpl.
  by repeat (case_match; simplify_map_eq).
Qed.

(** X13.  When nobody is placed there are no connections either, and the
    bounds are the margins alone: width 100, height 50, offset 50. *)
Theorem empty_drawing fuel data collapsed viewMode focus out :
  buildTreeLayout fuel data collapsed viewMode focus = Some out →
  nodes out = [] →
  connections out = [] ∧ width out = 100 ∧ height out = 50 ∧ offsetX out = 50.
Proof.
  intros Hout Hnil.
  destruct (buildTreeLayout_bounds _ _ _ _ _ _ Hout) as (-> & -> & ->).
  apply buildTreeLayout_Some in Hout as (_ & _ & _ & ->).
  rewrite Hnil, buildConnections_nil. done.
Qed.

Lemma empty_drawing_witness :
  ∃ out,
    buildTreeLayout 3 linearData [] ancestors (Some "Z") = Some out
    ∧ connections out = [] ∧ width out = 100 ∧ height out = 50 ∧ offsetX out = 50.
Proof.
  destruct (buildTreeLayout 3 linearData [] ancestors (Some "Z")) as [out|] eqn:Hout;
    [|by vm_compute in Hout].
  exists out. split; [done|].
  apply (empty_drawing 3 linearData [] ancestors (Some "Z") out Hout).
  by vm_compute in Hout; simplify_eq.
Defined.

Lemma layoutNodes_row_y people p2c collapsed vp n :
  n ∈ layoutNodes people p2c collapsed vp →
  ∃ r : nat, TreeNodeData.y n = Z.of_nat r * LEVEL_HEIGHT + 20.
Proof. intros (r & g & i & p & _ & _ & ->)%elem_of_layoutNodes. by exists r. Qed.

Lemma parentChild_rows fuel data collapsed viewMode focus out c :
  buildTreeLayout fuel data collapsed viewMode focus = Some out →
  c ∈ connections out → isParentChild c →
  ∃ rp rc : nat,
    TreeConnectionData.y1 c = Z.of_nat rp * LEVEL_HEIGHT + 20 + NODE_HEIGHT
    ∧ TreeConnectionData.y2 c = Z.of_nat rc * LEVEL_HEIGHT + 20.
Proof.
  intros (visible & _ & Hnodes & ->)%buildTreeLayout_Some
         (family & _ & [Hc|Hc])%elem_of_buildConnections Htype.
  { apply elem_of_coupleConnection in Hc as [Hcp _].
    unfold isParentChild in Htype. congruence. }
  apply elem_of_childConnections in Hc
    as (_ & _ & link & cp & p & pp & _ & _ & Hcp & _ & -> & _ & Hpp & -> & _).
  apply personPositionsOf_Some in Hcp as (nc & Hnc & _ & ->).
  apply personPositionsOf_Some in Hpp as (np & Hnp & _ & ->).
  rewrite Hnodes in Hnc, Hnp.
  apply layoutNodes_row_y in Hnc as [rc ->].
  apply layoutNodes_row_y in Hnp as [rp ->].
  by exists rp, rc.
Qed.

(** X14.  For every parent-child connection of a layout, the height of the
    horizontal run computed by [TreeConnection] is the exact midpoint of the
    two ends; and when the child's top is below the parent's top, that run
    stays at least 30 below the parent's bottom edge and 30 above the
    child's top edge. *)
Theorem connector_midline fuel data collapsed viewMode focus out c :
  buildTreeLayout fuel data collapsed viewMode focus = Some out →
  c ∈ connections out → isParentChild c →
  let y1 := TreeConnectionData.y1 c in
  let y2 := TreeConnectionData.y2 c in
  2 * midYOf y1 y2 = y1 + y2
  ∧ (y1 - NODE_HEIGHT < y2 → y1 + 30 ≤ midYOf y1 y2 ≤ y2 - 30).
Proof.
  intros Hout Hc Htype.
  destruct (parentChild_rows _ _ _ _ _ _ _ Hout Hc Htype) as (rp & rc & -> & ->).
  unfold midYOf, LEVEL_HEIGHT, NODE_HEIGHT. simpl.
  replace (Z.of_nat rc * 140 + 20 - (Z.of_nat rp * 140 + 20 + 80))
    with ((70 * Z.of_nat rc - 70 * Z.of_nat rp - 40) * 2) by lia.
  rewrite Z.div_mul by done. lia.
Qed.

Lemma connector_midline_witness :
  2 * midYOf 100 160 = 100 + 160
  ∧ (100 - NODE_HEIGHT < 160 → 100 + 30 ≤ midYOf 100 160 ≤ 160 - 30).
Proof.
  destruct (buildTreeLayout 3 linearData [] all None) as [out|] eqn:Hout;
    [|by vm_compute in Hout].
  apply (connector_midline 3 linearData [] all None out
           (TreeConnectionData.mk "child-F-B" 0 100 0 160 parent_child true) Hout);
    [|done].
  vm_compute in Hout. simplify_eq. simpl. left.
Defined.

(** X15.  A couple connection joins two placed nodes at mid-height, and it
    is horizontal exactly when the two people are of the same generation. *)
Theorem couple_line_horizontal fuel data collapsed viewMode focus out c :
  buildTreeLayout fuel data collapsed viewMode focus = Some out →
  c ∈ connections out → isCouple c →
  ∃ nf nm,
    nf ∈ nodes out ∧ nm ∈ nodes out
    ∧ TreeConnectionData.y1 c = TreeNodeData.y nf + NODE_HEIGHT / 2
    ∧ TreeConnectionData.y2 c = TreeNodeData.y nm + NODE_HEIGHT / 2
    ∧ (TreeConnectionData.y1 c = TreeConnectionData.y2 c
       ↔ generationOf (TreeNodeData.person nf) = generationOf (TreeNodeData.person nm)).
Proof.
  intros (visible & _ & Hnodes & ->)%buildTreeLayout_Some
         (family & _ & [Hc|Hc])%elem_of_buildConnections Htype.
  2:{ apply elem_of_childConnections in Hc as [Hpc _].
      unfold isCouple in Htype. congruence. }
  apply elem_of_coupleConnection in Hc
    as (_ & f & m & fp & mp & _ & Hfp & _ & Hmp & _ & -> & _ & ->).
  apply personPositionsOf_Some in Hfp as (nf & Hnf & _ & ->).
  apply personPositionsOf_Some in Hmp as (nm & Hnm & _ & ->).
  exists nf, nm. do 4 (split; [done|]). simpl.
  rewrite Hnodes in Hnf, Hnm.
  destruct (rows_follow_generations _ _ _ _ _ _ Hnf Hnm) as [_ ->]. lia.
Qed.

Lemma couple_line_horizontal_witness :
  ∃ out,
    buildTreeLayout 3 coupleData [] all None = Some out
    ∧ ∀ c, c ∈ connections out → isCouple c →
        ∃ nf nm,
          nf ∈ nodes out ∧ nm ∈ nodes out
          ∧ TreeConnectionData.y1 c = TreeNodeData.y nf + NODE_HEIGHT / 2
          ∧ TreeConnectionData.y2 c = TreeNodeData.y nm + NODE_HEIGHT / 2
          ∧ (TreeConnectionData.y1 c = TreeConnectionData.y2 c
             ↔ generationOf (TreeNodeData.person nf)
               = generationOf (TreeNodeData.person nm)).
Proof.
  destruct (buildTreeLayout 3 coupleData [] all None) as [out|] eqn:Hout;
    [|by vm_compute in Hout].
  exists out. split; [done|]. intros c Hc Htype.
  exact (couple_line_horizontal 3 coupleData [] all None out c Hout Hc Htype).
Defined.

(** The path drawn for the connection from A to B of the linear records. *)
Example TreeConnection_path :
  TreeConnection (TreeConnectionData.mk "child-F-B" 0 100 0 160 parent_child true)
  = SvgPath "M 0 100 L 0 130 L 0 130 L 0 160".
Proof. by vm_compute. Qed.

(** * Further properties: the state of the tree component *)




(** ** Dragging *)

Lemma moves_keep_panStart data st moves :
  Forall isMove moves →
  let st' := foldl (FamilyTree.handle data) st moves in
  FamilyTree.isPanning st' = FamilyTree.isPanning st
  ∧ FamilyTree.panStart st' = FamilyTree.panStart st.
Proof.
  induction moves as [|e moves IH] using rev_ind; intros Hm; [done|].
  apply Forall_app in Hm as [Hm He]. rewrite Forall_singleton in He.
  destruct (IH Hm) as [IH1 IH2]. clear IH.
  rewrite foldl_snoc. destruct e; try done. simpl.
  unfold FamilyTree.handleMouseMove.
  set (s' := foldl (FamilyTree.handle data) st moves) in *.
  destruct (FamilyTree.isPanning s') eqn:E; simpl; [done|by rewrite E].
Qed.

Lemma moves_when_released data st moves :
  Forall isMove moves → FamilyTree.isPanning st = false →
  foldl (FamilyTree.handle data) st moves = st.
Proof.
  intros Hm Hreleased. induction Hm as [|e moves He _ IH]; [done|].
  destruct e; try done. simpl.
  unfold FamilyTree.handleMouseMove. by rewrite Hreleased.
Qed.

(** X17.  Dragging from one point to another with the main button, through
    any intermediate moves, translates the pan by the displacement of the
    pointer; and once the button is released, moving the pointer, anywhere
    and any number of times, no longer changes the pan. *)
Theorem drag_translates_pan data st x0 y0 moves x1 y1 later :
  Forall isMove moves →
  Forall isMove later →
  let dragged :=
    foldl (FamilyTree.handle data) st
      (FamilyTree.MouseDown 0 x0 y0 :: moves ++ [FamilyTree.MouseMove x1 y1]) in
  FamilyTree.pan dragged
  = ((FamilyTree.pan st).1 + (x1 - x0), (FamilyTree.pan st).2 + (y1 - y0))
  ∧ FamilyTree.pan (foldl (FamilyTree.handle data)
                      (FamilyTree.handle data dragged FamilyTree.MouseUp) later)
    = FamilyTree.pan dragged.
Proof.
  intros Hm Hlater dragged. split.
  - subst dragged. simpl. rewrite foldl_snoc.
    destruct (moves_keep_panStart data
                (FamilyTree.handleMouseDown 0 x0 y0 st) moves Hm) as [Hp Hs].
    simpl in *. unfold FamilyTree.handleMouseMove.
    rewrite Hp, Hs. simpl. f_equal; lia.
  - by rewrite moves_when_released.
Qed.

Lemma drag_translates_pan_witness :
  let dragged :=
    foldl (FamilyTree.handle linearData) FamilyTree.initial
      (FamilyTree.MouseDown 0 10 10
         :: [FamilyTree.MouseMove 50 5] ++ [FamilyTree.MouseMove 30 40]) in
  FamilyTree.pan dragged
  = ((FamilyTree.pan FamilyTree.initial).1 + (30 - 10),
     (FamilyTree.pan FamilyTree.initial).2 + (40 - 10))
  ∧ FamilyTree.pan (foldl (FamilyTree.handle linearData)
                      (FamilyTree.handle linearData dragged FamilyTree.MouseUp)
                      [FamilyTree.MouseMove 70 80; FamilyTree.MouseMove (-5) 12])
    = FamilyTree.pan dragged.
Proof.
  apply (drag_translates_pan linearData FamilyTree.initial 10 10
           [FamilyTree.MouseMove 50 5] 30 40
           [FamilyTree.MouseMove 70 80; FamilyTree.MouseMove (-5) 12]);
    repeat constructor.
Defined.

(** * Further properties: initials *)

Section initials_lemmas.
Context {U : Type} `{EqDecision U} (space : U).
Implicit Types (name word : list U).

Lemma splitSpace_nonempty name : splitSpace space name ≠ [].
Proof.
  destruct name as [|u name]; simpl; [done|].
  case_decide; [done|]. by destruct (splitSpace space name).
Qed.

Lemma splitSpace_word word :
  space ∉ word → splitSpace space word = [word].
Proof.
  induction word as [|u word IH]; intros Hs; [done|]. simpl.
  rewrite decide_False by (intros ->; apply Hs; left).
  rewrite IH; [done|]. intros ?; apply Hs; by right.
Qed.

Lemma splitSpace_app name1 name2 :
  splitSpace space (name1 ++ space :: name2)
  = match splitSpace space name1 with
    | [] => []
    | _ => splitSpace space name1 ++ splitSpace space name2
    end.
Proof.
  pose proof (splitSpace_nonempty name1) as Hne.
  destruct (splitSpace space name1) as [|w ws] eqn:Hs; [done|]. clear Hne.
  revert w ws Hs. induction name1 as [|u name1 IH]; intros w ws Hs; simpl in *.
  - rewrite decide_True by done. by simplify_eq.
  - case_decide.
    + simplify_eq. pose proof (splitSpace_nonempty name1).
      destruct (splitSpace space name1) as [|w' ws'] eqn:Hs'; [done|].
      by rewrite (IH w' ws').
    + pose proof (splitSpace_nonempty name1).
      destruct (splitSpace space name1) as [|w' ws'] eqn:Hs'; [done|].
      rewrite (IH w' ws') by done. by simplify_eq.
Qed.

Lemma splitSpace_snoc_word name word :
  space ∉ word →
  splitSpace space (name ++ space :: word) = splitSpace space name ++ [word].
Proof.
  intros Hw. rewrite splitSpace_app, (splitSpace_word word Hw).
  pose proof (splitSpace_nonempty name). by destruct (splitSpace space name).
Qed.

Lemma splitSpace_words name :
  Forall (λ word, (space ∉ word) ∧ (∀ u, u ∈ word → u ∈ name))
         (splitSpace space name).
Proof.
  induction name as [|u name IH]; simpl.
  - constructor; [|constructor]. split; [apply not_elem_of_nil|done].
  - case_decide as Hu.
    + constructor.
      { split; [apply not_elem_of_nil|]. by intros ? ?%elem_of_nil. }
      eapply Forall_impl; [exact IH|]. intros w [? Hin]. split; [done|].
      intros v Hv. right. by apply Hin.
    + pose proof (splitSpace_nonempty name) as Hne.
      destruct (splitSpace space name) as [|w ws]; [done|].
      apply Forall_cons in IH as [[Hw Hin] IH]. constructor.
      * split.
        { rewrite elem_of_cons. intros [Heq|?]; [by subst|done]. }
        intros v [->|Hv]%elem_of_cons; [left|right; by apply Hin].
      * eapply Forall_impl; [exact IH|]. intros w' [? Hin']. split; [done|].
        intros v Hv. right. by apply Hin'.
Qed.

Lemma length_lastTwo {A} (l : list A) : (length (lastTwo l) ≤ 2)%nat.
Proof. unfold lastTwo. rewrite length_drop. lia. Qed.

Lemma lastTwo_app_two {A} (l : list A) a b : lastTwo (l ++ [a; b]) = [a; b].
Proof.
  unfold lastTwo. rewrite length_app. simpl.
  replace (length l + 2 - 2)%nat with (length l) by lia.
  by rewrite drop_app_length.
Qed.

(** X18.  The initials of a display name, before upper-casing: at most two
    code units, none of them a space, all taken from the name; the first
    unit of a name without a space; and the first units of the last two
    space-separated words otherwise (an empty word, as after a trailing
    space, contributes nothing). *)
Theorem initials_at_most_two name :
  let initials := initialsBeforeUpperCase space name in
  (length initials ≤ 2)%nat
  ∧ (space ∉ initials)
  ∧ (∀ u, u ∈ initials → u ∈ name)
  ∧ (space ∉ name → initials = take 1 name)
  ∧ (∀ word1 word2, space ∉ word1 → space ∉ word2 →
       name = word1 ++ space :: word2 →
       initials = take 1 word1 ++ take 1 word2)
  ∧ (∀ before word1 word2, space ∉ word1 → space ∉ word2 →
       name = before ++ space :: word1 ++ space :: word2 →
       initials = take 1 word1 ++ take 1 word2).
Proof.
  intros initials. subst initials. unfold initialsBeforeUpperCase.
  split; [|split; [|split; [|split; [|split]]]].
  - pose proof (length_lastTwo (head <$> splitSpace space name)) as Hlen.
    revert Hlen. generalize (lastTwo (head <$> splitSpace space name)).
    intros [|[a|] [|[b|] [|? ?]]]; simpl; lia.
  - intros (l & Hs & (o & -> & Ho)%list_elem_of_fmap)%list_elem_of_join.
    destruct o as [u|]; [|by inversion Hs].
    apply list_elem_of_singleton in Hs as <-.
    unfold lastTwo in Ho.
    apply (λ H, elem_of_sublist _ _ _ H (sublist_drop _ _)) in Ho.
    apply list_elem_of_fmap in Ho as (w & Hhead & Hw).
    pose proof (splitSpace_words name) as Hall. rewrite Forall_forall in Hall.
    destruct (Hall w Hw) as [Hsp _]. destruct w; simplify_eq/=.
    apply Hsp. left.
  - intros u (l & Hs & (o & -> & Ho)%list_elem_of_fmap)%list_elem_of_join.
    destruct o as [v|]; [|by inversion Hs].
    apply list_elem_of_singleton in Hs as ->.
    unfold lastTwo in Ho.
    apply (λ H, elem_of_sublist _ _ _ H (sublist_drop _ _)) in Ho.
    apply list_elem_of_fmap in Ho as (w & Hhead & Hw).
    pose proof (splitSpace_words name) as Hall. rewrite Forall_forall in Hall.
    destruct (Hall w Hw) as [_ Hin]. destruct w; simplify_eq/=.
    apply Hin. left.
  - intros Hs. rewrite (splitSpace_word name Hs). by destruct name.
  - intros word1 word2 H1 H2 ->.
    rewrite (splitSpace_snoc_word word1 word2 H2), (splitSpace_word word1 H1).
    by destruct word1, word2.
  - intros before word1 word2 H1 H2 ->.
    rewrite app_comm_cons, app_assoc.
    rewrite (splitSpace_snoc_word _ word2 H2), (splitSpace_snoc_word _ word1 H1).
    rewrite !fmap_app, <- app_assoc. simpl. rewrite lastTwo_app_two.
    by destruct word1, word2.
Qed.
End initials_lemmas.

(** With bytes for code units: the last two words give the initials, and a
    trailing space costs one. *)
Example initials_of_three_words :
  initialsBeforeUpperCase (Ascii.ascii_of_nat 32) (String.list_ascii_of_string "Dang Dinh An")
  = String.list_ascii_of_string "DA"
  ∧ initialsBeforeUpperCase (Ascii.ascii_of_nat 32) (String.list_ascii_of_string "Dang Dinh An ")
    = String.list_ascii_of_string "A".
Proof. by vm_compute. Qed.

(** * Further properties: the users page *)

Lemma requested_snoc events e user role :
  UsersPage.requested events user role →
  UsersPage.requested (events ++ [e]) user role.
Proof.
  intros (c & n & Hin & Hne). exists c, n. split; [|done].
  apply elem_of_app. by left.
Qed.

Lemma dialogChangesRole_run events :
  dialogChangesRole events (foldl UsersPage.handle ([], None) events).
Proof.
  induction events as [|e events IH] using rev_ind.
  - split; [done|]. intros ?? H. inversion H.
  - rewrite foldl_snoc. destruct IH as [IHd IHm].
    destruct (foldl UsersPage.handle ([], None) events) as [effects dialog].
    simpl in *. destruct e as [user new cur name|resolves|isOpen]; simpl.
    + split.
      * unfold UsersPage.handleRoleChange. intros d. case_decide as Hsame.
        -- intros Hd. destruct (IHd d Hd) as [? ?].
           split; [done|]. by apply requested_snoc.
        -- intros [= <-]. split; [done|]. simpl. exists cur, name.
           split; [|done]. apply elem_of_app. right. left.
      * intros u r Hin. by apply requested_snoc, IHm.
    + destruct dialog as [d|]; simpl.
      * split; [done|]. intros u r. cbn [fst].
        rewrite elem_of_app, elem_of_cons.
        intros [Hin|[[= -> ->]|Hin]].
        -- by apply requested_snoc, IHm.
        -- apply requested_snoc. by apply (IHd d).
        -- destruct resolves; repeat (apply elem_of_cons in Hin as [Hin|Hin]; [done|]);
             by apply elem_of_nil in Hin.
      * split; [done|]. intros u r. cbn [fst]. rewrite app_nil_r. intros Hin.
        by apply requested_snoc, IHm.
    + split.
      * destruct isOpen; simpl; [|done]. intros d Hd.
        destruct (IHd d Hd). split; [done|]. by apply requested_snoc.
      * intros u r Hin. by apply requested_snoc, IHm.
Qed.

(** X19.  On the users page, every update request sent names a user and a
    role for which the select box was changed to a role different from the
    current one; and confirming always closes the dialog, sending exactly
    one request when a dialog was open and none otherwise, whether the
    request succeeds or fails. *)
Theorem role_updates_change_the_role events :
  let st := foldl UsersPage.handle ([], None) events in
  (∀ user role, UsersPage.MutateAsync user role ∈ st.1 →
     ∃ current name,
       UsersPage.RoleChange user role current name ∈ events ∧ role ≠ current)
  ∧ (∀ resolves,
       (UsersPage.confirmRoleChange resolves st.2).2 = None
       ∧ length (filter (λ e, UsersPage.isMutateAsync e = true)
                   (UsersPage.confirmRoleChange resolves st.2).1)
         = match st.2 with Some _ => 1%nat | None => 0%nat end).
Proof.
  intros st. pose proof (dialogChangesRole_run events) as [_ Hm].
  fold st in Hm. destruct st as [effects dialog].
  split; [exact Hm|]. intros resolves.
  destruct dialog as [d|]; simpl; [|done]. split; [done|].
  by destruct resolves.
Qed.
